(** * tsgo: a checker for pointer-carrying channel sends, goroutine calls
      and package-level variables

    Shallow embedding of [tsgo.go].  The program walks a type-checked Go
    syntax tree with [ast.Walk] and prints a warning

    - at a send statement whose value has a type for which
      [typeContainsPointer] answers [true],
    - at a [go] statement, for the called function and for every argument
      for which it answers [true],
    - at every spec of a [var] declaration met outside a function
      declaration.

    The embedding follows the source function by function:
    [typeContainsPointer], [stringifyNode], [printError] and
    [visitor.Visit].  [ast.Walk] (package go/ast) is transcribed for the node
    kinds the visitor distinguishes; what packages go/token, go/printer and
    go/types provide is collected in the class [Frontend]. *)

From Stdlib Require Import ZArith.
From stdpp Require Import base option list strings pretty.

Set Default Proof Using "Type".
Set Warnings "-register-all".
Open Scope string_scope.

(** ** Resolved types (package go/types) *)

Module types.

(** [types.BasicKind], in the order of the library's [const] block. *)
Inductive BasicKind : Set :=
| Invalid
| Bool | Int | Int8 | Int16 | Int32 | Int64
| Uint | Uint8 | Uint16 | Uint32 | Uint64 | Uintptr
| Float32 | Float64 | Complex64 | Complex128
| String | UnsafePointer
| UntypedBool | UntypedInt | UntypedRune | UntypedFloat
| UntypedComplex | UntypedString | UntypedNil.

#[global] Instance BasicKind_eq_dec : EqDecision BasicKind.
Proof. solve_decision. Defined.

Inductive ChanDir : Set := SendRecv | SendOnly | RecvOnly.

(** The dynamic types behind the interface [types.Type].  A value of the
    interface is an [option Type_]: [None] is the nil interface.
    [Named] carries what [Underlying()] returns; [Struct] carries its
    fields in declaration order, so that [Field(i)] is the [i]-th entry
    and [NumFields()] the length.  [Signature] and [Tuple] are the two
    dynamic types the classifier has no case for. *)
Inductive Type_ : Type :=
| Array (len : Z) (elem : Type_)
| Basic (kind : BasicKind)
| Chan (dir : ChanDir) (elem : Type_)
| Interface (methods : list string)
| Map (key elem : Type_)
| Named (obj : string) (underlying : Type_)
| Pointer (base : Type_)
| Signature (params results : list Type_) (variadic : bool)
| Slice (elem : Type_)
| Struct (fields : list (string * Type_))
| Tuple (vars : list Type_).

End types.

Import types.

(** ** The classifier *)

(** [typeContainsPointer] on a non-nil [types.Type].  The type switch has
    no fallthrough: a [*types.Basic] of kind [UnsafePointer] skips the [if]
    and leaves the switch, reaching the final [return true, t] like a type
    without a case.  The loop over [t.Field(i)] is the inner [fix]. *)
Fixpoint typeContainsPointerT (t : Type_) : bool * option Type_ :=
  match t with
  | Array _ _ => (true, Some t)
  | Basic kind =>
      if negb (bool_decide (kind = UnsafePointer))
      then (true, Some t)
      else (true, Some t)
  | Chan _ _ => (false, None)
  | Interface _ => (false, None)
  | Map _ _ => (true, Some t)
  | Named _ underlying => typeContainsPointerT underlying
  | Pointer _ => (true, Some t)
  | Slice _ => (true, Some t)
  | Struct fields =>
      (fix loop (fs : list (string * Type_)) : bool * option Type_ :=
         match fs with
         | [] => (false, None)
         | (_, fieldType) :: rest =>
             let '(contains, subType) := typeContainsPointerT fieldType in
             if contains then (true, subType) else loop rest
         end) fields
  | Signature _ _ _ | Tuple _ => (true, Some t)
  end.

(** The function as the visitor calls it, on an interface value: a nil
    [t] matches no case of the type switch and is returned as it is. *)
Definition typeContainsPointer (t : option Type_) : bool * option Type_ :=
  match t with
  | Some t' => typeContainsPointerT t'
  | None => (true, None)
  end.

(** The field loop of the [*types.Struct] case, as a function of its own. *)
Fixpoint structLoop (fs : list (string * Type_)) : bool * option Type_ :=
  match fs with
  | [] => (false, None)
  | (_, fieldType) :: rest =>
      let '(contains, subType) := typeContainsPointerT fieldType in
      if contains then (true, subType) else structLoop rest
  end.

(** A field qualifies when its type classifies as containing a pointer. *)
Definition qualifies (f : string * Type_) : Prop :=
  (typeContainsPointerT f.2).1 = true.

#[global] Instance qualifies_dec f : Decision (qualifies f).
Proof. unfold qualifies. apply _. Defined.

(** ** Syntax trees (packages go/token and go/ast) *)

Module token.

(** [token.Pos]: an offset into the file set; [NoPos] is 0. *)
Definition Pos : Type := Z.

(** The keywords a [GenDecl] can carry in its [Tok] field. *)
Inductive Token : Set := IMPORT | CONST | TYPE | VAR.

#[global] Instance Token_eq_dec : EqDecision Token.
Proof. solve_decision. Defined.

End token.

Module ast.

(** The node kinds [Visit] has a case for, those that lead to them from
    the root of a file, and [Other] for every remaining kind, with its
    children in the order [ast.Walk] visits them.  The driver parses
    without [parser.ParseComments], so the [Doc] and [Comment] fields are
    nil and left out.  [GoStmt] holds its [Call] field, which has the
    static type [*ast.CallExpr], through that node's [Fun] and [Args]. *)
Inductive Node : Type :=
| Ident (NamePos : token.Pos) (Name : string)
| CallExpr (Fun : Node) (Args : list Node)
| FuncLit (Type' : Node) (Body : Node)
| SendStmt (Chan : Node) (Arrow : token.Pos) (Value : Node)
| GoStmt (Go : token.Pos) (Fun : Node) (Args : list Node)
| DeclStmt (Decl : Node)
| BlockStmt (Lbrace : token.Pos) (List : list Node)
| ValueSpec (Names : list Node) (Type' : option Node) (Values : list Node)
| GenDecl (TokPos : token.Pos) (Tok : token.Token) (Specs : list Node)
| FuncDecl (Recv : option Node) (Name : Node) (Type' : Node)
    (Body : option Node)
| File (Package : token.Pos) (Name : Node) (Decls : list Node)
| Other (kind : string) (pos : token.Pos) (children : list Node).

End ast.

Import ast.

(** ** What the analyzer takes from the Go libraries *)

(** The services of go/token, go/ast, go/printer, go/types and fmt the
    program calls.  [Position fset p] is the text [fmt] prints for
    [fset.Position(p)] under [%s]; [Fprint fset n] is what
    [printer.Fprint] writes into an empty buffer, or its error;
    [TypeString t] is the text of a type under [%v]; [TypeOf info e] is
    [info.TypeOf(e)], nil when the table has no entry for [e]. *)
Class Frontend : Type := {
  FileSet : Type;
  Info : Type;
  node_Pos : Node -> token.Pos;
  Position : FileSet -> token.Pos -> string;
  Fprint : FileSet -> Node -> string + string;
  TypeString : Type_ -> string;
  TypeOf : Info -> Node -> option Type_
}.

(** ** Effects: the visitors on the heap, standard output, panics *)

(** Outcome of a call: it returns, or it panics. *)
Inductive Res (A : Type) : Type :=
| Ok (a : A)
| Panic (err : string).
Arguments Ok {A} a.
Arguments Panic {A} err.

Section Analyzer.
Context `{Frontend}.

(** [type visitor struct]. *)
Record visitor : Type := mkVisitor {
  fset : FileSet;
  info : Info;
  isInsideFunction : bool
}.

(** A [*visitor] is an index into the heap of allocated visitors. *)
Definition ptr : Type := nat.

Record State : Type := mkState {
  heap : list visitor;
  stdout : list string
}.

Definition M (A : Type) : Type := State -> Res A * State.

Definition ret {A} (a : A) : M A := fun st => (Ok a, st).

Definition bind {A B} (c : M A) (k : A -> M B) : M B :=
  fun st =>
    match c st with
    | (Ok a, st') => k a st'
    | (Panic e, st') => (Panic e, st')
    end.

Definition panic {A} (err : string) : M A := fun st => (Panic err, st).

(** [*v]: the visitor a pointer refers to. *)
Definition load (v : ptr) : M visitor :=
  fun st =>
    match heap st !! v with
    | Some vv => (Ok vv, st)
    | None => (Panic "invalid memory address or nil pointer dereference", st)
    end.

(** [&x] for a local [x] that escapes: a new cell at the end of the heap. *)
Definition alloc (x : visitor) : M ptr :=
  fun st => (Ok (length (heap st)), mkState (heap st ++ [x]) (stdout st)).

(** One call of [fmt.Printf]: the formatted text is appended to the
    output. *)
Definition Printf (text : string) : M unit :=
  fun st => (Ok tt, mkState (heap st) (stdout st ++ [text])).

#[export] Instance M_ret : MRet M := @ret.
#[export] Instance M_bind : MBind M := fun A B k c => bind c k.

(** [v.f] for a field [f] of the visitor behind the pointer [v]. *)
Definition field {A} (f : visitor -> A) (v : ptr) : M A :=
  vv ← load v; mret (f vv).

(** ** The reporter *)

Definition newline : string :=
  String.String (Ascii.ascii_of_nat 10) EmptyString.

(** [stringifyNode]: the printer's text for the node; its error becomes a
    panic. *)
Definition stringifyNode (fset : FileSet) (node : Node) : M string :=
  match Fprint fset node with
  | inl text => mret text
  | inr err => panic err
  end.

(** The text [fmt.Printf] builds from the format
    ["%s:warning: %s (%v)\n"]. *)
Definition warningLine (position message annotation : string) : string :=
  position +:+ ":warning: " +:+ message +:+ " (" +:+ annotation +:+ ")"
    +:+ newline.

(** [printError]. *)
Definition printError (fset : FileSet) (node : Node) (message : string)
    (t : option Type_) : M unit :=
  annotation ← match t with
               | Some t' => mret (TypeString t')
               | None => stringifyNode fset node
               end;
  Printf (warningLine (Position fset (node_Pos node)) message annotation).

(** ** The visitor *)

(** [for _, arg := range n.Call.Args] of the [*ast.GoStmt] case. *)
Fixpoint goArgs (v : ptr) (args : list Node) : M unit :=
  match args with
  | [] => mret tt
  | arg :: rest =>
      i ← field info v;
      let '(contains, pointerType) := typeContainsPointer (TypeOf i arg) in
      (if contains
       then fs ← field fset v;
            printError fs arg "calling goroutine with a pointer type"
              pointerType
       else mret tt);;
      goArgs v rest
  end.

(** [for _, spec := range n.Specs] of the [*ast.GenDecl] case. *)
Fixpoint varSpecs (v : ptr) (specs : list Node) : M unit :=
  match specs with
  | [] => mret tt
  | spec :: rest =>
      fs ← field fset v;
      printError fs spec "global var declared" None;;
      varSpecs v rest
  end.

(** [func (v *visitor) Visit(n ast.Node) ast.Visitor]; [None] is the nil
    node [ast.Walk] passes after the children of a node.  The result is
    never a nil visitor. *)
Definition Visit (v : ptr) (n : option Node) : M ptr :=
  match n with
  | Some (SendStmt _ _ Value as n') =>
      i ← field info v;
      let '(contains, pointerType) := typeContainsPointer (TypeOf i Value) in
      (if contains
       then fs ← field fset v;
            printError fs n' "sending pointer type over a channel"
              pointerType
       else mret tt);;
      mret v
  | Some (GoStmt _ Fun Args as n') =>
      i ← field info v;
      let '(contains, pointerType) := typeContainsPointer (TypeOf i Fun) in
      (if contains
       then fs ← field fset v;
            printError fs n' "calling goroutine on a pointer type"
              pointerType
       else mret tt);;
      goArgs v Args;;
      mret v
  | Some (GenDecl _ Tok Specs) =>
      inside ← field isInsideFunction v;
      (if negb inside && bool_decide (Tok = token.VAR)
       then varSpecs v Specs
       else mret tt);;
      mret v
  | Some (FuncDecl _ _ _ _) =>
      newVisitor ← load v;
      let newVisitor :=
        mkVisitor (fset newVisitor) (info newVisitor) true in
      alloc newVisitor
  | Some (Ident _ _) => mret v
  | _ => mret v
  end.

(** ** The traversal (go/ast) *)

(** [ast.Walk(v, node)]: [Visit] the node, walk its children with the
    visitor that call returned, then [Visit(nil)] with it.  [Visit]
    returns no nil visitor, so the walk never stops early.  The call node
    of a [go] statement is walked as the node of its own it is in Go. *)
Fixpoint Walk (v : ptr) (node : Node) {struct node} : M unit :=
  let walkList :=
    fix walkList (w : ptr) (l : list Node) {struct l} : M unit :=
      match l with
      | [] => mret tt
      | x :: rest => Walk w x;; walkList w rest
      end in
  let walkOpt (w : ptr) (o : option Node) : M unit :=
    match o with
    | Some x => Walk w x
    | None => mret tt
    end in
  w ← Visit v (Some node);
  match node with
  | Ident _ _ => mret tt
  | CallExpr Fun Args => Walk w Fun;; walkList w Args
  | FuncLit Type' Body => Walk w Type';; Walk w Body
  | SendStmt Chan' _ Value => Walk w Chan';; Walk w Value
  | GoStmt _ Fun Args =>
      w' ← Visit w (Some (CallExpr Fun Args));
      Walk w' Fun;; walkList w' Args;;
      Visit w' None;; mret tt
  | DeclStmt Decl => Walk w Decl
  | BlockStmt _ List => walkList w List
  | ValueSpec Names Type' Values =>
      walkList w Names;; walkOpt w Type';; walkList w Values
  | GenDecl _ _ Specs => walkList w Specs
  | FuncDecl Recv Name Type' Body =>
      walkOpt w Recv;; Walk w Name;; Walk w Type';; walkOpt w Body
  | File _ Name Decls => Walk w Name;; walkList w Decls
  | Other _ _ children => walkList w children
  end;;
  Visit w None;;
  mret tt.

(** [walkList] of the library, as a function of its own. *)
Fixpoint walkList (w : ptr) (l : list Node) : M unit :=
  match l with
  | [] => mret tt
  | x :: rest => Walk w x;; walkList w rest
  end.

Definition walkOpt (w : ptr) (o : option Node) : M unit :=
  match o with
  | Some x => Walk w x
  | None => mret tt
  end.

(** ** The driver *)

(** The body of the loop over the files in [main], after the type check:
    [ast.Walk(&visitor{fset: fset, info: info}, f.node)].  The flag of the
    new visitor has the zero value [false]. *)
Definition walkFile (fs : FileSet) (i : Info) (node : Node) : M unit :=
  v ← alloc (mkVisitor fs i false);
  Walk v node.

(** A run on one file, from an empty heap and an empty output. *)
Definition run (fs : FileSet) (i : Info) (node : Node) : Res unit * State :=
  walkFile fs i node (mkState [] []).

End Analyzer.

Arguments visitor {_}.
Arguments State {_}.
Arguments M {_} A.

(** ** Vocabulary of the statements *)

Section Vocabulary.
Context `{Frontend}.

(** The walk below a node: its children in the order of [ast.Walk]. *)
Definition walkChildren (w : ptr) (node : Node) : M unit :=
  match node with
  | Ident _ _ => mret tt
  | CallExpr Fun Args => Walk w Fun;; walkList w Args
  | FuncLit Type' Body => Walk w Type';; Walk w Body
  | SendStmt Chan' _ Value => Walk w Chan';; Walk w Value
  | GoStmt _ Fun Args =>
      w' ← Visit w (Some (CallExpr Fun Args));
      Walk w' Fun;; walkList w' Args;;
      Visit w' None;; mret tt
  | DeclStmt Decl => Walk w Decl
  | BlockStmt _ List => walkList w List
  | ValueSpec Names Type' Values =>
      walkList w Names;; walkOpt w Type';; walkList w Values
  | GenDecl _ _ Specs => walkList w Specs
  | FuncDecl Recv Name Type' Body =>
      walkOpt w Recv;; Walk w Name;; Walk w Type';; walkOpt w Body
  | File _ Name Decls => Walk w Name;; walkList w Decls
  | Other _ _ children => walkList w children
  end.

(** The state after the given texts were printed: the heap is the same,
    the output is longer. *)
Definition say (lines : list string) (st : State) : State :=
  mkState (heap st) (stdout st ++ lines).

(** The state after the given visitors were allocated. *)
Definition grown (cells : list visitor) (st : State) : State :=
  mkState (heap st ++ cells) (stdout st).

(** A computation that leaves every allocated visitor as it is: what it
    does to the heap is to add cells at its end. *)
Definition keepsHeap {A} (c : M A) : Prop :=
  forall st r st', c st = (r, st') -> heap st `prefix_of` heap st'.

(** A computation that allocates nothing. *)
Definition sameHeap {A} (c : M A) : Prop :=
  forall st r st', c st = (r, st') -> heap st' = heap st.

(** A computation that, started where [w] points to a visitor inside a
    function, returns without printing; all it may do is allocate. *)
Definition quiet (w : ptr) (c : M unit) : Prop :=
  forall ww st,
    heap st !! w = Some ww -> isInsideFunction ww = true ->
    exists cells, c st = (Ok tt, grown cells st).

(** The line printed at [node] for a positive verdict on the type of the
    expression [e], and nothing for a negative one. *)
Definition verdictLine (vv : visitor) (node : Node) (message : string)
    (e : Node) : list string :=
  match typeContainsPointer (TypeOf (info vv) e) with
  | (true, Some u) =>
      [warningLine (Position (fset vv) (node_Pos node)) message (TypeString u)]
  | _ => []
  end.

(** The line printed for a spec of a [var] declaration whose source text
    is [text]. *)
Definition specWarning (vv : visitor) (spec : Node) (text : string)
    : string :=
  warningLine (Position (fset vv) (node_Pos spec)) "global var declared" text.

(** The printer renders each of the specs, as the text at the same index. *)
Definition printed (vv : visitor) (specs : list Node) (texts : list string)
    : Prop :=
  Forall2 (fun spec text => Fprint (fset vv) spec = inl text) specs texts.

End Vocabulary.

(** ** Shapes of syntax trees used in the statements *)

(** [allNodes p n]: [p] holds of [n] and of every node below it. *)
Fixpoint allNodes (p : Node -> bool) (n : Node) {struct n} : bool :=
  p n &&
  match n with
  | Ident _ _ => true
  | CallExpr Fun Args => allNodes p Fun && forallb (allNodes p) Args
  | FuncLit Type' Body => allNodes p Type' && allNodes p Body
  | SendStmt Chan' _ Value => allNodes p Chan' && allNodes p Value
  | GoStmt _ Fun Args => allNodes p Fun && forallb (allNodes p) Args
  | DeclStmt Decl => allNodes p Decl
  | BlockStmt _ List => forallb (allNodes p) List
  | ValueSpec Names Type' Values =>
      forallb (allNodes p) Names && from_option (allNodes p) true Type'
      && forallb (allNodes p) Values
  | GenDecl _ _ Specs => forallb (allNodes p) Specs
  | FuncDecl Recv Name Type' Body =>
      from_option (allNodes p) true Recv && allNodes p Name
      && allNodes p Type' && from_option (allNodes p) true Body
  | File _ Name Decls => allNodes p Name && forallb (allNodes p) Decls
  | Other _ _ children => forallb (allNodes p) children
  end.

(** Neither a send nor a [go] statement. *)
Definition notSendGo (n : Node) : bool :=
  match n with
  | SendStmt _ _ _ | GoStmt _ _ _ => false
  | _ => true
  end.

(** None of the four kinds at which [Visit] acts. *)
Definition notTrigger (n : Node) : bool :=
  match n with
  | SendStmt _ _ _ | GoStmt _ _ _ | GenDecl _ _ _ | FuncDecl _ _ _ _ => false
  | _ => true
  end.

(** A tree without send and [go] statements. *)
Definition sendFree : Node -> bool := allNodes notSendGo.

(** A tree in which [Visit] has nothing to do at any node. *)
Definition inert : Node -> bool := allNodes notTrigger.

Definition isFuncDecl (n : option Node) : bool :=
  match n with
  | Some (FuncDecl _ _ _ _) => true
  | _ => false
  end.

(** The names a list of specs declares: the [Names] of its value specs. *)
Fixpoint declaredNames (specs : list Node) : list Node :=
  match specs with
  | [] => []
  | ValueSpec Names _ _ :: rest => Names ++ declaredNames rest
  | _ :: rest => declaredNames rest
  end.

(** The diagnostic line in the wording of the specification, with a space
    between the position's colon and the word [warning]. *)
Definition specLine (position message annotation : string) : string :=
  position +:+ ": warning: " +:+ message +:+ " (" +:+ annotation +:+ ")"
    +:+ newline.

(** ** A small frontend, to run the analyzer on concrete trees *)

Module demo.

Definition kindName (k : BasicKind) : string :=
  match k with
  | Invalid => "invalid type"
  | Bool => "bool" | Int => "int" | Int8 => "int8" | Int16 => "int16"
  | Int32 => "int32" | Int64 => "int64"
  | Uint => "uint" | Uint8 => "uint8" | Uint16 => "uint16"
  | Uint32 => "uint32" | Uint64 => "uint64" | Uintptr => "uintptr"
  | Float32 => "float32" | Float64 => "float64"
  | Complex64 => "complex64" | Complex128 => "complex128"
  | String => "string" | UnsafePointer => "unsafe.Pointer"
  | UntypedBool => "untyped bool" | UntypedInt => "untyped int"
  | UntypedRune => "untyped rune" | UntypedFloat => "untyped float"
  | UntypedComplex => "untyped complex" | UntypedString => "untyped string"
  | UntypedNil => "untyped nil"
  end.

(** A type's text; composite literals of fields and parameters are
    abbreviated. *)
Fixpoint typeText (t : Type_) : string :=
  match t with
  | Array len elem => "[" +:+ pretty len +:+ "]" +:+ typeText elem
  | Basic kind => kindName kind
  | Chan _ elem => "chan " +:+ typeText elem
  | Interface _ => "interface{...}"
  | Map key elem => "map[" +:+ typeText key +:+ "]" +:+ typeText elem
  | Named obj _ => obj
  | Pointer base => "*" +:+ typeText base
  | Signature _ _ _ => "func(...)"
  | Slice elem => "[]" +:+ typeText elem
  | Struct _ => "struct{...}"
  | Tuple _ => "(...)"
  end.

(** [Pos()] of a node, as go/ast computes it from the node's fields. *)
Fixpoint nodePos (n : Node) : token.Pos :=
  match n with
  | Ident NamePos _ => NamePos
  | CallExpr Fun _ => nodePos Fun
  | FuncLit Type' _ => nodePos Type'
  | SendStmt Chan' _ _ => nodePos Chan'
  | GoStmt Go _ _ => Go
  | DeclStmt Decl => nodePos Decl
  | BlockStmt Lbrace _ => Lbrace
  | ValueSpec Names _ _ =>
      match Names with
      | name :: _ => nodePos name
      | [] => 0%Z
      end
  | GenDecl TokPos _ _ => TokPos
  | FuncDecl _ _ Type' _ => nodePos Type'
  | File Package _ _ => Package
  | Other _ pos _ => pos
  end.

Definition identName (n : Node) : string :=
  match n with
  | Ident _ Name => Name
  | _ => "_"
  end.

Fixpoint commaList (names : list string) : string :=
  match names with
  | [] => EmptyString
  | [name] => name
  | name :: rest => name +:+ ", " +:+ commaList rest
  end.

(** Source text of identifiers and of value specs without initial values;
    other nodes print as their kind. *)
Definition nodeText (n : Node) : string + string :=
  match n with
  | Ident _ Name => inl Name
  | ValueSpec Names (Some ty) [] =>
      inl (commaList (identName <$> Names) +:+ " " +:+ identName ty)
  | ValueSpec Names _ _ =>
      inl (commaList (identName <$> Names) +:+ " = ...")
  | Other kind _ _ => inl kind
  | _ => inl "..."
  end.

(** The type table: the type of each identifier, by name; no entry for
    other expressions. *)
Definition typeOf (table : list (string * Type_)) (e : Node)
    : option Type_ :=
  match e with
  | Ident _ Name =>
      snd <$> List.find (fun entry => String.eqb (fst entry) Name) table
  | _ => None
  end.

Definition frontend : Frontend := {|
  FileSet := string;
  Info := list (string * Type_);
  node_Pos := nodePos;
  Position := fun file p => file +:+ ":" +:+ pretty p;
  Fprint := fun _ n => nodeText n;
  TypeString := typeText;
  TypeOf := typeOf
|}.

#[local] Open Scope Z_scope.

(** [go f(p, x)] at offset 40, with [f] a function of a [*int] and an
    [unsafe.Pointer],
    [p *int] and [x unsafe.Pointer]. *)
Definition goCall : Node :=
  GoStmt 40 (Ident 43 "f") [Ident 45 "p"; Ident 48 "x"].

Definition goCallTypes : list (string * Type_) :=
  [("f", Signature [Pointer (Basic Int); Basic UnsafePointer] [] false);
   ("p", Pointer (Basic Int));
   ("x", Basic UnsafePointer)].

(** [ch <- buf] at offset 70, with [buf []uint8]. *)
Definition sendBuf : Node := SendStmt (Ident 70 "ch") 73 (Ident 76 "buf").

Definition sendTypes : list (string * Type_) :=
  [("ch", Chan SendRecv (Slice (Basic Uint8))); ("buf", Slice (Basic Uint8))].

(** [var a, b int] at offset 14: one spec, two names. *)
Definition specAB : Node :=
  ValueSpec [Ident 18 "a"; Ident 21 "b"] (Some (Ident 23 "int")) [].

Definition varAB : Node := GenDecl 14 token.VAR [specAB].

(** [func() { var x int }] at offset 22: a [var] declaration in the body
    of a function literal. *)
Definition literal : Node :=
  FuncLit (Other "FuncType" 22 [Other "FieldList" 26 []])
    (BlockStmt 29
       [DeclStmt
          (GenDecl 31 token.VAR
             [ValueSpec [Ident 35 "x"] (Some (Ident 37 "int")) []])]).

(** [var f = func() { var x int }] at offset 14, outside every function
    declaration. *)
Definition varInLiteral : Node :=
  GenDecl 14 token.VAR [ValueSpec [Ident 18 "f"] None [literal]].

(** [func g() { var x int }] at offset 50. *)
Definition varInFunc : Node :=
  FuncDecl None (Ident 55 "g") (Other "FuncType" 50 [Other "FieldList" 56 []])
    (Some (BlockStmt 59
       [DeclStmt
          (GenDecl 61 token.VAR
             [ValueSpec [Ident 65 "x"] (Some (Ident 67 "int")) []])])).

(** The visitor of the driver, at the top level of the file [x.go]. *)
Definition topVisitor (table : list (string * Type_)) : @visitor frontend :=
  @mkVisitor frontend "x.go" table false.

(** That visitor alone on the heap, and nothing printed yet. *)
Definition top (table : list (string * Type_)) : @State frontend :=
  mkState [topVisitor table] [].

(** A file with the three declarations above. *)
Definition file : Node :=
  File 1 (Ident 9 "main") [varInLiteral; varInFunc; varAB].

End demo.

(** ** The loop over the files in [main] *)

Section Driver.
Context `{Frontend}.

(** [cfg.Check(f.path, fset, []*ast.File{f.node}, &info)]: the filled type
    table, or the error of the type checker. *)
Variable Check : FileSet -> string -> Node -> Info + string.

(** [for _, f := range files] in [main]: each parsed file is type-checked,
    an error of the checker is a panic, and the file is walked with a new
    visitor. *)
Fixpoint checkFiles (fs : FileSet) (files : list (string * Node))
    : M unit :=
  match files with
  | [] => mret tt
  | (path, node) :: rest =>
      match Check fs path node with
      | inr err => panic err
      | inl i => walkFile fs i node;; checkFiles fs rest
      end
  end.

(** The file passes the type checker with table [i] and its walk
    returns. *)
Definition analyzed (fs : FileSet) (f : string * Node) (i : Info) : Prop :=
  Check fs f.1 f.2 = inl i /\ (run fs i f.2).1 = Ok tt.

(** The lines of the files, each analyzed on its own. *)
Definition linesOf (fs : FileSet) (files : list (string * Node))
    (infos : list Info) : list string :=
  concat (zip_with (fun f i => stdout (run fs i f.2).2) files infos).

End Driver.

(** ** Vocabulary of the further properties *)

(** [reaches t u]: [u] is [t], or lies below [t] through underlying types
    of named types and types of struct fields. *)
Inductive reaches : Type_ -> Type_ -> Prop :=
| reaches_refl t : reaches t t
| reaches_underlying obj u w : reaches u w -> reaches (Named obj u) w
| reaches_field fields name ty w :
    (name, ty) ∈ fields -> reaches ty w -> reaches (Struct fields) w.

(** The types for which the classifier answers with the type itself. *)
Definition selfWitness (t : Type_) : bool :=
  match t with
  | Chan _ _ | Interface _ | Named _ _ | Struct _ => false
  | _ => true
  end.

(** The number of function declarations in a tree. *)
Fixpoint countFuncDecl (n : Node) {struct n} : nat :=
  match n with
  | Ident _ _ => 0
  | CallExpr Fun Args | GoStmt _ Fun Args =>
      countFuncDecl Fun + sum_list (countFuncDecl <$> Args)
  | FuncLit a b | SendStmt a _ b => countFuncDecl a + countFuncDecl b
  | DeclStmt Decl => countFuncDecl Decl
  | BlockStmt _ l | GenDecl _ _ l | Other _ _ l =>
      sum_list (countFuncDecl <$> l)
  | ValueSpec Names Type' Values =>
      sum_list (countFuncDecl <$> Names) + from_option countFuncDecl 0 Type'
      + sum_list (countFuncDecl <$> Values)
  | FuncDecl Recv Name Type' Body =>
      S (from_option countFuncDecl 0 Recv + countFuncDecl Name
         + countFuncDecl Type' + from_option countFuncDecl 0 Body)
  | File _ Name Decls =>
      countFuncDecl Name + sum_list (countFuncDecl <$> Decls)
  end.

Section Outcomes.
Context `{Frontend}.

(** The visitor [Visit] allocates at a function declaration met by [vv]. *)
Definition child (vv : visitor) : visitor :=
  mkVisitor (fset vv) (info vv) true.

(** The printer renders every node. *)
Definition printable (fs : FileSet) : Prop :=
  forall n, exists text, Fprint fs n = inl text.

(** A computation whose outcome [r] and printed [lines] are the same from
    every state in which its receiver points to [vv]; it allocates
    nothing. *)
Definition yields {A} (vv : visitor) (c : ptr -> M A) (r : Res A)
    (lines : list string) : Prop :=
  forall v st, heap st !! v = Some vv -> c v st = (r, say lines st).

Definition determined {A} (vv : visitor) (c : ptr -> M A) : Prop :=
  exists r lines,
    (printable (fset vv) -> exists a, r = Ok a) /\ yields vv c r lines.

(** A computation that, from every state in which its receiver points to
    [vv], has the same outcome, prints the same lines and allocates the
    same number of copies of [child vv]: [m] of them when it returns. *)
Definition shaped (c : ptr -> M unit) (m : nat) : Prop :=
  forall vv, exists (r : Res unit) (lines : list string) (k : nat),
    (r = Ok tt -> k = m) /\
    (printable (fset vv) -> r = Ok tt) /\
    forall v st,
      heap st !! v = Some vv ->
      c v st
      = (r, mkState (heap st ++ replicate k (child vv))
              (stdout st ++ lines)).

(** The outcome of a call of [Visit] that returns its receiver. *)
Definition returning (r : Res unit) (v : ptr) : Res ptr :=
  match r with
  | Ok _ => Ok v
  | Panic err => Panic err
  end.

End Outcomes.

(** Two more files for the driver: the type checker rejects [bad.go]. *)
Module demoDriver.

Definition check (fs path : string) (node : Node)
    : list (string * Type_) + string :=
  if String.eqb path "bad.go"
  then inr "bad.go:3:9: undefined: y"
  else inl [].

(** The frontend of [demo] with a printer that fails on nodes of kind
    [BadDecl]. *)
Definition strict : Frontend := {|
  FileSet := string;
  Info := list (string * Type_);
  node_Pos := demo.nodePos;
  Position := fun file p => file +:+ ":" +:+ pretty p;
  Fprint := fun _ n =>
    match n with
    | Other kind _ _ =>
        if String.eqb kind "BadDecl"
        then inr "go/printer: unsupported node type"
        else demo.nodeText n
    | _ => demo.nodeText n
    end;
  TypeString := demo.typeText;
  TypeOf := demo.typeOf
|}.

(** [var ( a, b int; <bad>; c int )]: the printer fails on the second
    spec. *)
Definition varBad : Node :=
  GenDecl 14%Z token.VAR
    [demo.specAB; Other "BadDecl" 30%Z [];
     ValueSpec [Ident 40%Z "c"] (Some (Ident 42%Z "int")) []].

(** [const c int] at offset 5. *)
Definition constC : Node :=
  GenDecl 5%Z token.CONST
    [ValueSpec [Ident 11%Z "c"] (Some (Ident 13%Z "int")) []].

(** The call [f(p, x)], an expression without statements and
    declarations. *)
Definition call : Node :=
  CallExpr (Ident 43%Z "f") [Ident 45%Z "p"; Ident 48%Z "x"].

Definition fileA : Node :=
  File 1%Z (Ident 9%Z "main") [demo.varAB].

Definition fileB : Node :=
  File 1%Z (Ident 9%Z "main") [demo.varInFunc; demo.varInLiteral].

End demoDriver.

(** ** Vocabulary of the statements on nested declarations *)

(** The nodes [ast.Walk] walks below a node, in its order.  For a [go]
    statement they are the children of its call node. *)
Definition childrenOf (n : Node) : list Node :=
  match n with
  | Ident _ _ => []
  | CallExpr Fun Args | GoStmt _ Fun Args => Fun :: Args
  | FuncLit a b | SendStmt a _ b => [a; b]
  | DeclStmt Decl => [Decl]
  | BlockStmt _ l | GenDecl _ _ l | Other _ _ l => l
  | ValueSpec Names Type' Values =>
      Names ++ option_list Type' ++ Values
  | FuncDecl Recv Name Type' Body =>
      option_list Recv ++ Name :: Type' :: option_list Body
  | File _ Name Decls => Name :: Decls
  end.

(** [outsideFunctions root d]: the node [d] is [root] or lies below it, at
    any depth, on a path that enters no function declaration; function
    literals may be on the path. *)
Inductive outsideFunctions : Node -> Node -> Prop :=
| outside_here d : outsideFunctions d d
| outside_child n c d :
    isFuncDecl (Some n) = false ->
    c ∈ childrenOf n ->
    outsideFunctions c d ->
    outsideFunctions n d.

Section Rendering.
Context `{Frontend}.

(** The node itself, when the verdict on the expression [e] is positive
    without a witness: the case in which [printError] calls
    [stringifyNode]. *)
Definition untyped (i : Info) (node e : Node) : list Node :=
  match typeContainsPointer (TypeOf i e) with
  | (true, None) => [node]
  | _ => []
  end.

(** The nodes [Visit] may pass to [stringifyNode] at a node: a send or
    [go] statement reported without a witness type, an argument reported
    without one, the specs of a [var] declaration. *)
Definition stringified (i : Info) (n : Node) : list Node :=
  match n with
  | SendStmt _ _ Value => untyped i n Value
  | GoStmt _ Fun Args =>
      untyped i n Fun ++ concat ((fun arg => untyped i arg arg) <$> Args)
  | GenDecl _ Tok Specs => if bool_decide (Tok = token.VAR) then Specs else []
  | _ => []
  end.

(** The printer renders the node. *)
Definition rendered (fs : FileSet) (x : Node) : bool :=
  match Fprint fs x with
  | inl _ => true
  | inr _ => false
  end.

(** The printer renders what [Visit] may ask it for at the node. *)
Definition renders (fs : FileSet) (i : Info) (n : Node) : bool :=
  forallb (rendered fs) (stringified i n).

End Rendering.

(** [func() { if c { var x int } }] at offset 22: the declaration is
    nested in a block of the literal's body. *)
Module demoNested.

Definition decl : Node :=
  GenDecl 40%Z token.VAR
    [ValueSpec [Ident 44%Z "x"] (Some (Ident 46%Z "int")) []].

Definition block : Node := BlockStmt 38%Z [DeclStmt decl].

Definition ifStmt : Node := Other "IfStmt" 31%Z [Ident 34%Z "c"; block].

Definition body : Node := BlockStmt 29%Z [ifStmt].

Definition fieldList : Node := Other "FieldList" 26%Z [].

Definition funcType : Node := Other "FuncType" 22%Z [fieldList].

Definition literal : Node := FuncLit funcType body.

(** [var f = func() { if c { var x int } }] at offset 14. *)
Definition spec : Node := ValueSpec [Ident 18%Z "f"] None [literal].

Definition varF : Node := GenDecl 14%Z token.VAR [spec].

Definition file : Node := File 1%Z (Ident 9%Z "main") [varF; demo.varInFunc].

End demoNested.

(** * Properties *)

(** ** The classifier *)

Lemma typeContainsPointerT_Struct fields :
  typeContainsPointerT (Struct fields) = structLoop fields.
Proof.
  simpl. induction fields as [|[name ty] rest IH]; simpl; [done|].
  destruct (typeContainsPointerT ty) as [[] w]; [done|]. exact IH.
Qed.

Lemma structLoop_none fs :
  Forall (fun f => ~ qualifies f) fs -> structLoop fs = (false, None).
Proof.
  induction 1 as [|[name ty] rest Hf _ IH]; simpl; [done|].
  unfold qualifies in Hf. simpl in Hf.
  destruct (typeContainsPointerT ty) as [[] w]; simpl in *; [done|exact IH].
Qed.

Lemma structLoop_first pre name ty post :
  Forall (fun f => ~ qualifies f) pre ->
  qualifies (name, ty) ->
  structLoop (pre ++ (name, ty) :: post) = (true, (typeContainsPointerT ty).2).
Proof.
  intros Hpre Hq. induction Hpre as [|[n0 t0] rest Hf _ IH]; simpl.
  - unfold qualifies in Hq. simpl in Hq.
    destruct (typeContainsPointerT ty) as [[] w]; simpl in *; done.
  - unfold qualifies in Hf. simpl in Hf.
    destruct (typeContainsPointerT t0) as [[] w]; simpl in *; [done|exact IH].
Qed.

Lemma structLoop_true_iff fs :
  (structLoop fs).1 = true <-> Exists qualifies fs.
Proof.
  induction fs as [|[name ty] rest IH]; simpl.
  - split; [done|]. by intros ?%Exists_nil.
  - rewrite Exists_cons. unfold qualifies at 1. simpl.
    destruct (typeContainsPointerT ty) as [[] w]; simpl.
    + split; auto.
    + rewrite IH. split; [auto|]. by intros [?|?].
Qed.

(** A negative verdict carries no witness. *)
Lemma typeContainsPointerT_false t w :
  typeContainsPointerT t = (false, w) -> w = None.
Proof.
  revert w. induction t as [| | | | |obj u IH| | | |fs|]; intros w;
    try (simpl; by intros [= <-]); try (simpl; by case_bool_decide).
  - simpl. apply IH.
  - rewrite typeContainsPointerT_Struct.
    induction fs as [|[name ty] rest IHfs]; simpl; [by intros [= <-]|].
    destruct (typeContainsPointerT ty) as [[] w']; [done|exact IHfs].
Qed.

(** A positive verdict on a type names a witness. *)
Lemma typeContainsPointerT_true :
  forall t w, typeContainsPointerT t = (true, w) -> is_Some w.
Proof.
  fix IH 1. intros t w. destruct t as [| | | | |obj u| | | |fs|];
    try (simpl; intros [= <-]; by eexists); try (simpl; by case_bool_decide).
  - simpl. case_bool_decide; intros [= <-]; by eexists.
  - simpl. apply IH.
  - rewrite typeContainsPointerT_Struct.
    induction fs as [|[name ty] rest IHfs]; simpl; [done|].
    destruct (typeContainsPointerT ty) as [[] w'] eqn:E.
    + intros [= <-]. exact (IH ty w' E).
    + exact IHfs.
Qed.

(** C1 (the code departs from it): a [*types.Basic] of kind
    [UnsafePointer] fails the test of the [if], leaves the type switch
    and reaches the final [return true, t]; the classifier answers
    [true] with the type itself as witness, where a negative verdict is
    expected. *)
Theorem unsafe_pointer_classified_positive :
  typeContainsPointer (Some (Basic UnsafePointer))
  = (true, Some (Basic UnsafePointer)).
Proof. reflexivity. Qed.

(** Every scalar type, whatever its kind, is classified positive with
    itself as witness. *)
Lemma basic_classified_positive kind :
  typeContainsPointer (Some (Basic kind)) = (true, Some (Basic kind)).
Proof. simpl. by case_bool_decide. Qed.

(** C5: a struct type is classified positive exactly when one of its
    fields is; the witness is the one found for the first such field in
    declaration order, whatever follows it; when no field is classified
    positive the verdict is negative with no witness.  For fields
    [A; B; C] of which only [B] and [C] are classified positive, the
    witness is the one of [B]. *)
Theorem struct_first_qualifying_field :
  (forall fields,
     (typeContainsPointer (Some (Struct fields))).1 = true
     <-> Exists qualifies fields) /\
  (forall pre name ty post,
     Forall (fun f => ~ qualifies f) pre ->
     qualifies (name, ty) ->
     typeContainsPointer (Some (Struct (pre ++ (name, ty) :: post)))
     = (true, (typeContainsPointer (Some ty)).2)) /\
  (forall fields,
     Forall (fun f => ~ qualifies f) fields ->
     typeContainsPointer (Some (Struct fields)) = (false, None)) /\
  (forall a b c,
     ~ qualifies a -> qualifies b -> qualifies c ->
     typeContainsPointer (Some (Struct [a; b; c]))
     = (true, (typeContainsPointer (Some b.2)).2)).
Proof.
  unfold typeContainsPointer. repeat split.
  - rewrite typeContainsPointerT_Struct. apply structLoop_true_iff.
  - rewrite typeContainsPointerT_Struct. apply structLoop_true_iff.
  - intros. rewrite typeContainsPointerT_Struct. by apply structLoop_first.
  - intros. rewrite typeContainsPointerT_Struct. by apply structLoop_none.
  - intros a [nb tb] c Ha Hb Hc. rewrite typeContainsPointerT_Struct.
    apply (structLoop_first [a] nb tb [c]); [|done].
    by apply Forall_singleton.
Qed.

Lemma struct_first_qualifying_field_witness :
  typeContainsPointer
    (Some (Struct [("done", Chan SendRecv (Basic Bool));
                   ("next", Pointer (Basic Int));
                   ("data", Slice (Basic Uint8))]))
  = (true, Some (Pointer (Basic Int))).
Proof.
  destruct struct_first_qualifying_field as (_ & _ & _ & H3).
  apply (H3 ("done", Chan SendRecv (Basic Bool))
            ("next", Pointer (Basic Int))
            ("data", Slice (Basic Uint8))).
  - unfold qualifies. simpl. discriminate.
  - reflexivity.
  - reflexivity.
Defined.

(** C6: a named type is classified as its underlying type is, verdict and
    witness alike, and so is a chain of named types of any length; a named
    type over a named type over a channel type is classified negative. *)
Theorem named_transparent :
  (forall obj u,
     typeContainsPointer (Some (Named obj u)) = typeContainsPointer (Some u)) /\
  (forall objs u,
     typeContainsPointer (Some (foldr Named u objs))
     = typeContainsPointer (Some u)) /\
  (forall n1 n2 dir elem,
     typeContainsPointer (Some (Named n1 (Named n2 (Chan dir elem))))
     = (false, None)).
Proof.
  split; [reflexivity|split; [|reflexivity]].
  intros objs u. induction objs as [|obj objs IH]; [reflexivity|exact IH].
Qed.

(** C8: array, map, pointer and slice types are classified positive with
    the type itself as witness; channel and interface types are classified
    negative; the types without a case of their own (signatures and
    tuples) are classified positive with the type itself as witness; a
    negative verdict never carries a witness. *)
Theorem decision_table :
  (forall len elem,
     typeContainsPointer (Some (Array len elem))
     = (true, Some (Array len elem))) /\
  (forall key elem,
     typeContainsPointer (Some (Map key elem))
     = (true, Some (Map key elem))) /\
  (forall base,
     typeContainsPointer (Some (Pointer base)) = (true, Some (Pointer base))) /\
  (forall elem,
     typeContainsPointer (Some (Slice elem)) = (true, Some (Slice elem))) /\
  (forall dir elem,
     (typeContainsPointer (Some (Chan dir elem))).1 = false) /\
  (forall methods,
     (typeContainsPointer (Some (Interface methods))).1 = false) /\
  (forall params results variadic,
     typeContainsPointer (Some (Signature params results variadic))
     = (true, Some (Signature params results variadic))) /\
  (forall vars,
     typeContainsPointer (Some (Tuple vars)) = (true, Some (Tuple vars))) /\
  (forall t w, typeContainsPointer t = (false, w) -> w = None).
Proof.
  repeat split.
  intros [t|] w; simpl; [apply typeContainsPointerT_false|done].
Qed.

Lemma decision_table_witness :
  (typeContainsPointer
     (Some (Struct [("done", Named "signal" (Chan RecvOnly (Basic Int)))]))).2
  = None.
Proof.
  destruct decision_table as (_ & _ & _ & _ & _ & _ & _ & _ & Hnone).
  apply (Hnone
           (Some (Struct [("done", Named "signal" (Chan RecvOnly (Basic Int)))]))).
  reflexivity.
Defined.

(** ** The monad and the reporter *)

Section Reporter.
Context `{Frontend}.

Lemma bind_Ok {A B} (c : M A) (k : A -> M B) st a st1 :
  c st = (Ok a, st1) -> (c ≫= k) st = k a st1.
Proof. intros E. unfold mbind, M_bind, bind. by rewrite E. Qed.

Lemma bind_Panic {A B} (c : M A) (k : A -> M B) st err st1 :
  c st = (Panic err, st1) -> (c ≫= k) st = (Panic err, st1).
Proof. intros E. unfold mbind, M_bind, bind. by rewrite E. Qed.

Lemma say_nil st : say [] st = st.
Proof. destruct st. unfold say. simpl. by rewrite app_nil_r. Qed.

Lemma say_say a b st : say b (say a st) = say (a ++ b) st.
Proof. unfold say. simpl. by rewrite app_assoc. Qed.

Lemma grown_nil st : grown [] st = st.
Proof. destruct st. unfold grown. simpl. by rewrite app_nil_r. Qed.

Lemma grown_grown a b st : grown b (grown a st) = grown (a ++ b) st.
Proof. unfold grown. simpl. by rewrite app_assoc. Qed.

Lemma field_Some {A} (f : visitor -> A) v vv st :
  heap st !! v = Some vv -> field f v st = (Ok (f vv), st).
Proof.
  intros Hv. unfold field. erewrite bind_Ok; [reflexivity|].
  unfold load. by rewrite Hv.
Qed.

Lemma printError_typed fs node message u st :
  printError fs node message (Some u) st
  = (Ok tt,
     say [warningLine (Position fs (node_Pos node)) message (TypeString u)] st).
Proof. reflexivity. Qed.

Lemma printError_text fs node message text st :
  Fprint fs node = inl text ->
  printError fs node message None st
  = (Ok tt, say [warningLine (Position fs (node_Pos node)) message text] st).
Proof. intros E. unfold printError, stringifyNode. by rewrite E. Qed.

Lemma printError_panic fs node message err st :
  Fprint fs node = inr err ->
  printError fs node message None st = (Panic err, st).
Proof. intros E. unfold printError, stringifyNode. by rewrite E. Qed.

(** C4 (as amended): for a finding, the reporter appends one text to the
    output, [<position>:warning: <message> (<annotation>)] and a newline,
    with no space between the colon after the position and the word
    [warning]; the annotation is the text of the witness type when there
    is one, and the source text of the node otherwise. *)
Theorem printError_one_line :
  (forall fs node message u st,
     printError fs node message (Some u) st
     = (Ok tt,
        mkState (heap st)
          (stdout st ++
           [Position fs (node_Pos node) +:+ ":warning: " +:+ message +:+ " ("
              +:+ TypeString u +:+ ")" +:+ newline]))) /\
  (forall fs node message text st,
     Fprint fs node = inl text ->
     printError fs node message None st
     = (Ok tt,
        mkState (heap st)
          (stdout st ++
           [Position fs (node_Pos node) +:+ ":warning: " +:+ message +:+ " ("
              +:+ text +:+ ")" +:+ newline]))).
Proof.
  split; intros.
  - apply printError_typed.
  - by apply printError_text.
Qed.

End Reporter.

(** C4, the text printed for the identifier [p] at offset 45 when no type
    is given, by the theorem above. *)
Lemma printError_one_line_witness :
  @printError demo.frontend "x.go" (Ident 45%Z "p") "global var declared" None
    (demo.top [])
  = (Ok tt,
     mkState (heap (demo.top []))
       ["x.go:45:warning: global var declared (p)" +:+ newline]).
Proof.
  destruct (@printError_one_line demo.frontend) as [_ Htext].
  apply (Htext "x.go" (Ident 45%Z "p") "global var declared" "p" (demo.top [])).
  reflexivity.
Defined.

(** C4 (as stated, refuted): the text printed for a value of type [*int]
    sent at offset 45 has no space before [warning]; it is not the line
    the specification words. *)
Lemma printError_not_spec_line :
  stdout
    (@printError demo.frontend "x.go" (Ident 45%Z "p")
       "sending pointer type over a channel" (Some (Pointer (Basic Int)))
       (demo.top [])).2
  = ["x.go:45:warning: sending pointer type over a channel (*int)"
       +:+ newline] /\
  stdout
    (@printError demo.frontend "x.go" (Ident 45%Z "p")
       "sending pointer type over a channel" (Some (Pointer (Basic Int)))
       (demo.top [])).2
  <> [specLine "x.go:45" "sending pointer type over a channel" "*int"].
Proof. split; [reflexivity|]. vm_compute. discriminate. Qed.

(** ** The visitor at a node *)

Section Visitor.
Context `{Frontend}.

Lemma verdict_resolved t w :
  typeContainsPointer (Some t) = (true, w) -> exists u, w = Some u.
Proof. simpl. intros E. by destruct (typeContainsPointerT_true t w E) as [u ->]; eexists. Qed.

(** What the visitor does with the verdict on the expression [e], reporting
    at [node]. *)
Lemma report_verdict v vv node message e contains pointerType st :
  heap st !! v = Some vv ->
  is_Some (TypeOf (info vv) e) ->
  typeContainsPointer (TypeOf (info vv) e) = (contains, pointerType) ->
  (if contains
   then fs ← field fset v; printError fs node message pointerType
   else mret tt) st
  = (Ok tt, say (verdictLine vv node message e) st).
Proof.
  intros Hv [t Ht] E. unfold verdictLine. rewrite E. rewrite Ht in E.
  destruct contains.
  - destruct (verdict_resolved t _ E) as [u ->].
    rewrite (bind_Ok _ _ _ _ _ (field_Some fset v vv st Hv)).
    apply printError_typed.
  - by rewrite say_nil.
Qed.

Lemma goArgs_resolved v vv args st :
  heap st !! v = Some vv ->
  Forall (fun arg => is_Some (TypeOf (info vv) arg)) args ->
  goArgs v args st
  = (Ok tt,
     say (concat ((fun arg =>
                     verdictLine vv arg "calling goroutine with a pointer type"
                       arg) <$> args)) st).
Proof.
  intros Hv Hargs. revert st Hv.
  induction Hargs as [|arg rest Harg _ IH]; intros st Hv.
  - simpl. by rewrite say_nil.
  - cbn [goArgs fmap list_fmap concat].
    rewrite (bind_Ok _ _ _ _ _ (field_Some info v vv st Hv)).
    destruct (typeContainsPointer (TypeOf (info vv) arg)) as [c p] eqn:E.
    erewrite bind_Ok; [|by eapply report_verdict].
    rewrite IH by done. by rewrite say_say.
Qed.

Lemma Visit_SendStmt v vv ch arrow value st :
  heap st !! v = Some vv ->
  is_Some (TypeOf (info vv) value) ->
  Visit v (Some (SendStmt ch arrow value)) st
  = (Ok v,
     say (verdictLine vv (SendStmt ch arrow value)
            "sending pointer type over a channel" value) st).
Proof.
  intros Hv Hty. unfold Visit.
  rewrite (bind_Ok _ _ _ _ _ (field_Some info v vv st Hv)).
  destruct (typeContainsPointer (TypeOf (info vv) value)) as [c p] eqn:E.
  erewrite bind_Ok; [|by eapply report_verdict]. reflexivity.
Qed.

(** A value without an entry in the type table: the nil type is
    classified positive with a nil witness, and the line is annotated with
    the source text of the statement. *)
Lemma Visit_SendStmt_unresolved v vv ch arrow value text st :
  heap st !! v = Some vv ->
  TypeOf (info vv) value = None ->
  Fprint (fset vv) (SendStmt ch arrow value) = inl text ->
  Visit v (Some (SendStmt ch arrow value)) st
  = (Ok v,
     say [warningLine (Position (fset vv) (node_Pos (SendStmt ch arrow value)))
            "sending pointer type over a channel" text] st).
Proof.
  intros Hv Hty Htext. unfold Visit.
  rewrite (bind_Ok _ _ _ _ _ (field_Some info v vv st Hv)).
  rewrite Hty. cbn [typeContainsPointer]. cbv iota beta.
  erewrite bind_Ok; [reflexivity|].
  rewrite (bind_Ok _ _ _ _ _ (field_Some fset v vv st Hv)).
  by apply printError_text.
Qed.

(** The [go] statement: the verdict on the called function is reported at
    the statement, the verdict on each argument at the argument, in
    order. *)
Lemma Visit_GoStmt v vv go f args st :
  heap st !! v = Some vv ->
  is_Some (TypeOf (info vv) f) ->
  Forall (fun arg => is_Some (TypeOf (info vv) arg)) args ->
  Visit v (Some (GoStmt go f args)) st
  = (Ok v,
     say (verdictLine vv (GoStmt go f args)
            "calling goroutine on a pointer type" f
          ++ concat ((fun arg =>
                        verdictLine vv arg
                          "calling goroutine with a pointer type" arg)
                     <$> args)) st).
Proof.
  intros Hv Hf Hargs. unfold Visit.
  rewrite (bind_Ok _ _ _ _ _ (field_Some info v vv st Hv)).
  destruct (typeContainsPointer (TypeOf (info vv) f)) as [c p] eqn:E.
  erewrite bind_Ok; [|by eapply report_verdict].
  erewrite bind_Ok; [|by eapply goArgs_resolved].
  by rewrite say_say.
Qed.

Lemma varSpecs_printed v vv specs texts st :
  heap st !! v = Some vv ->
  printed vv specs texts ->
  varSpecs v specs st
  = (Ok tt, say (zip_with (specWarning vv) specs texts) st).
Proof.
  intros Hv Hp. revert st Hv.
  induction Hp as [|spec text specs texts Hspec _ IH]; intros st Hv.
  - simpl. by rewrite say_nil.
  - cbn [varSpecs zip_with].
    rewrite (bind_Ok _ _ _ _ _ (field_Some fset v vv st Hv)).
    erewrite bind_Ok; [|by apply printError_text].
    rewrite IH by done. by rewrite say_say.
Qed.

Lemma Visit_GenDecl_var v vv tokPos specs texts st :
  heap st !! v = Some vv ->
  isInsideFunction vv = false ->
  printed vv specs texts ->
  Visit v (Some (GenDecl tokPos token.VAR specs)) st
  = (Ok v, say (zip_with (specWarning vv) specs texts) st).
Proof.
  intros Hv Hflag Hp. unfold Visit.
  rewrite (bind_Ok _ _ _ _ _ (field_Some isInsideFunction v vv st Hv)).
  rewrite Hflag. simpl.
  erewrite bind_Ok; [|by eapply varSpecs_printed]. reflexivity.
Qed.

Lemma Visit_GenDecl_inside v vv tokPos tok specs st :
  heap st !! v = Some vv ->
  isInsideFunction vv = true ->
  Visit v (Some (GenDecl tokPos tok specs)) st = (Ok v, st).
Proof.
  intros Hv Hflag. unfold Visit.
  rewrite (bind_Ok _ _ _ _ _ (field_Some isInsideFunction v vv st Hv)).
  rewrite Hflag. reflexivity.
Qed.

Lemma Visit_GenDecl_other v vv tokPos tok specs st :
  heap st !! v = Some vv ->
  tok <> token.VAR ->
  Visit v (Some (GenDecl tokPos tok specs)) st = (Ok v, st).
Proof.
  intros Hv Htok. unfold Visit.
  rewrite (bind_Ok _ _ _ _ _ (field_Some isInsideFunction v vv st Hv)).
  rewrite bool_decide_eq_false_2 by done. rewrite andb_false_r. reflexivity.
Qed.

Lemma Visit_FuncDecl v vv recv name ty body st :
  heap st !! v = Some vv ->
  Visit v (Some (FuncDecl recv name ty body)) st
  = (Ok (length (heap st)),
     grown [mkVisitor (fset vv) (info vv) true] st).
Proof.
  intros Hv. unfold Visit. erewrite bind_Ok; [reflexivity|].
  unfold load. by rewrite Hv.
Qed.

Lemma Visit_notTrigger v n st :
  notTrigger n = true -> Visit v (Some n) st = (Ok v, st).
Proof. by destruct n. Qed.

Lemma Visit_nil v st : Visit v None st = (Ok v, st).
Proof. reflexivity. Qed.

End Visitor.

(** ** The traversal *)

(** Induction on syntax trees, with the hypothesis for every child. *)
Lemma Node_nested_ind (P : Node -> Prop) :
  (forall p s, P (Ident p s)) ->
  (forall f args, P f -> Forall P args -> P (CallExpr f args)) ->
  (forall ty b, P ty -> P b -> P (FuncLit ty b)) ->
  (forall c a x, P c -> P x -> P (SendStmt c a x)) ->
  (forall g f args, P f -> Forall P args -> P (GoStmt g f args)) ->
  (forall d, P d -> P (DeclStmt d)) ->
  (forall lb l, Forall P l -> P (BlockStmt lb l)) ->
  (forall names ty vals,
     Forall P names -> (forall t, ty = Some t -> P t) -> Forall P vals ->
     P (ValueSpec names ty vals)) ->
  (forall tp tok specs, Forall P specs -> P (GenDecl tp tok specs)) ->
  (forall recv name ty body,
     (forall r, recv = Some r -> P r) -> P name -> P ty ->
     (forall b, body = Some b -> P b) ->
     P (FuncDecl recv name ty body)) ->
  (forall p name decls, P name -> Forall P decls -> P (File p name decls)) ->
  (forall k p ch, Forall P ch -> P (Other k p ch)) ->
  forall n, P n.
Proof.
  intros HIdent HCall HLit HSend HGo HDecl HBlock HSpec HGen HFunc HFile HOther.
  fix IH 1. intros n.
  assert (HL : forall l : list Node, Forall P l).
  { intros l. induction l as [|x l IHl]; constructor; [apply IH|exact IHl]. }
  assert (HO : forall (o : option Node) t, o = Some t -> P t).
  { intros [x|] t; intros [= <-]. apply IH. }
  destruct n.
  - apply HIdent.
  - apply HCall; [apply IH|apply HL].
  - apply HLit; apply IH.
  - apply HSend; apply IH.
  - apply HGo; [apply IH|apply HL].
  - apply HDecl; apply IH.
  - apply HBlock; apply HL.
  - apply HSpec; [apply HL|apply HO|apply HL].
  - apply HGen; apply HL.
  - apply HFunc; [apply HO|apply IH|apply IH|apply HO].
  - apply HFile; [apply IH|apply HL].
  - apply HOther; apply HL.
Qed.

Section Traversal.
Context `{Frontend}.

Lemma Walk_unfold v node :
  Walk v node
  = (w ← Visit v (Some node); walkChildren w node;; Visit w None;; mret tt).
Proof. destruct node; reflexivity. Qed.

Lemma allNodes_unfold p n :
  allNodes p n = true ->
  p n = true /\
  match n with
  | Ident _ _ => True
  | CallExpr f args | GoStmt _ f args =>
      allNodes p f = true /\ Forall (fun x => allNodes p x = true) args
  | FuncLit a b | SendStmt a _ b => allNodes p a = true /\ allNodes p b = true
  | DeclStmt d => allNodes p d = true
  | BlockStmt _ l | GenDecl _ _ l | Other _ _ l =>
      Forall (fun x => allNodes p x = true) l
  | ValueSpec names ty vals =>
      Forall (fun x => allNodes p x = true) names /\
      (forall t, ty = Some t -> allNodes p t = true) /\
      Forall (fun x => allNodes p x = true) vals
  | FuncDecl recv name ty body =>
      (forall r, recv = Some r -> allNodes p r = true) /\
      allNodes p name = true /\ allNodes p ty = true /\
      (forall b, body = Some b -> allNodes p b = true)
  | File _ name decls =>
      allNodes p name = true /\ Forall (fun x => allNodes p x = true) decls
  end.
Proof.
  assert (HL : forall l, forallb (allNodes p) l = true ->
                         Forall (fun x => allNodes p x = true) l).
  { intros l Hl. apply Forall_forall. intros x Hx.
    rewrite forallb_forall in Hl. apply Hl. by apply list_elem_of_In. }
  assert (HO : forall o, from_option (allNodes p) true o = true ->
                         forall t, o = Some t -> allNodes p t = true).
  { by intros o Ho t ->. }
  destruct n; simpl; rewrite ?andb_true_iff;
    repeat match goal with
      | |- _ -> _ => intros ?
      | Hc : _ /\ _ |- _ => destruct Hc
      end;
    repeat split; auto; by apply HO.
Qed.

(** *** Trees in which the visitor has nothing to do *)

Lemma bind_same {A B} (c : M A) (k : A -> M B) a b :
  (forall st, c st = (Ok a, st)) ->
  (forall st, k a st = (Ok b, st)) ->
  forall st, (c ≫= k) st = (Ok b, st).
Proof. intros Hc Hk st. by rewrite (bind_Ok _ _ _ _ _ (Hc st)). Qed.

Lemma walkList_same w l :
  Forall (fun x => forall v st, Walk v x st = (Ok tt, st)) l ->
  forall st, walkList w l st = (Ok tt, st).
Proof.
  induction 1 as [|x l Hx _ IH]; simpl; [done|].
  by apply (bind_same _ _ tt).
Qed.

Lemma walkOpt_same w o :
  (forall t, o = Some t -> forall v st, Walk v t st = (Ok tt, st)) ->
  forall st, walkOpt w o st = (Ok tt, st).
Proof. destruct o as [t|]; simpl; [|done]. intros Ht. by apply Ht. Qed.

Lemma Forall_modus (P Q : Node -> Prop) l :
  Forall (fun x => P x -> Q x) l -> Forall P l -> Forall Q l.
Proof. induction 1; inversion 1; subst; constructor; auto. Qed.

Lemma Walk_inert n :
  inert n = true -> forall v st, Walk v n st = (Ok tt, st).
Proof.
  unfold inert.
  induction n as
    [p s|f args IHf IHargs|ty b IHty IHb|c a x IHc IHx|g f args IHf IHargs
    |d IHd|lb l IHl|names ty vals IHnames IHty IHvals|tp tok specs IHspecs
    |recv name ty body IHrecv IHname IHty IHbody|p name decls IHname IHdecls
    |k p ch IHch] using Node_nested_ind;
    intros Hn v; apply allNodes_unfold in Hn; destruct Hn as [Hp Hn];
    try discriminate Hp;
    rewrite Walk_unfold;
    (eapply bind_same; [intros; by apply Visit_notTrigger|]);
    (eapply (bind_same _ _ tt); [|intros; reflexivity]);
    cbn [walkChildren].
  - done.
  - destruct Hn as [Hf Hargs]. apply (bind_same _ _ tt); [by apply IHf|].
    apply walkList_same. exact (Forall_modus _ _ _ IHargs Hargs).
  - destruct Hn as [Hty Hb]. apply (bind_same _ _ tt); [by apply IHty|by apply IHb].
  - by apply IHd.
  - apply walkList_same. exact (Forall_modus _ _ _ IHl Hn).
  - destruct Hn as (Hnames & Hty & Hvals).
    apply (bind_same _ _ tt);
      [apply walkList_same; exact (Forall_modus _ _ _ IHnames Hnames)|].
    apply (bind_same _ _ tt);
      [apply walkOpt_same; intros t Ht; by apply (IHty t Ht), Hty|].
    apply walkList_same. exact (Forall_modus _ _ _ IHvals Hvals).
  - destruct Hn as [Hname Hdecls].
    apply (bind_same _ _ tt); [by apply IHname|].
    apply walkList_same. exact (Forall_modus _ _ _ IHdecls Hdecls).
  - apply walkList_same. exact (Forall_modus _ _ _ IHch Hn).
Qed.

End Traversal.

(** ** The visitors on the heap *)

Section Heap.
Context `{Frontend}.

Lemma sameHeap_keeps {A} (c : M A) : sameHeap c -> keepsHeap c.
Proof. intros Hc st r st' E. by rewrite (Hc st r st' E). Qed.

Lemma sameHeap_ret {A} (a : A) : sameHeap (mret a : M A).
Proof. by intros st r st' [= <- <-]. Qed.

Lemma sameHeap_panic {A} err : sameHeap (panic err : M A).
Proof. by intros st r st' [= <- <-]. Qed.

Lemma sameHeap_bind {A B} (c : M A) (k : A -> M B) :
  sameHeap c -> (forall a, sameHeap (k a)) -> sameHeap (c ≫= k).
Proof.
  intros Hc Hk st r st' E. unfold mbind, M_bind, bind in E.
  destruct (c st) as [[a|err] st1] eqn:E1.
  - rewrite (Hk a st1 r st' E). by eapply Hc.
  - injection E as <- <-. by eapply Hc.
Qed.

Lemma keepsHeap_bind {A B} (c : M A) (k : A -> M B) :
  keepsHeap c -> (forall a, keepsHeap (k a)) -> keepsHeap (c ≫= k).
Proof.
  intros Hc Hk st r st' E. unfold mbind, M_bind, bind in E.
  destruct (c st) as [[a|err] st1] eqn:E1.
  - etrans; [by eapply Hc|by eapply Hk].
  - injection E as <- <-. by eapply Hc.
Qed.

Lemma sameHeap_load v : sameHeap (load v).
Proof.
  intros st r st'. unfold load.
  by destruct (heap st !! v); intros [= <- <-].
Qed.

Lemma sameHeap_field {A} (f : visitor -> A) v : sameHeap (field f v).
Proof.
  apply sameHeap_bind; [apply sameHeap_load|intros; apply sameHeap_ret].
Qed.

Lemma sameHeap_Printf text : sameHeap (Printf text).
Proof. by intros st r st' [= <- <-]. Qed.

Lemma keepsHeap_alloc x : keepsHeap (alloc x).
Proof. intros st r st' [= <- <-]. simpl. by apply prefix_app_r. Qed.

Lemma sameHeap_printError fs node message t :
  sameHeap (printError fs node message t).
Proof.
  apply sameHeap_bind; [|intros; apply sameHeap_Printf].
  destruct t; [apply sameHeap_ret|]. unfold stringifyNode.
  destruct (Fprint fs node); [apply sameHeap_ret|apply sameHeap_panic].
Qed.

Ltac same_heap :=
  repeat first
    [ apply sameHeap_ret | apply sameHeap_field | apply sameHeap_printError
    | apply sameHeap_load
    | apply sameHeap_bind; [|intros]
    | match goal with
      | |- sameHeap (let '(_, _) := ?x in _) => destruct x
      | |- sameHeap (if ?b then _ else _) => destruct b
      end ].

Lemma sameHeap_goArgs v args : sameHeap (goArgs v args).
Proof. induction args as [|arg rest IH]; simpl; same_heap. exact IH. Qed.

Lemma sameHeap_varSpecs v specs : sameHeap (varSpecs v specs).
Proof. induction specs as [|spec rest IH]; simpl; same_heap. exact IH. Qed.

(** Only at a function declaration does [Visit] allocate or return a
    visitor other than its receiver. *)
Lemma Visit_same_visitor v n :
  isFuncDecl n = false ->
  sameHeap (Visit v n) /\
  forall st w st', Visit v n st = (Ok w, st') -> w = v.
Proof.
  intros Hn. split.
  - destruct n as [[]|]; try discriminate Hn; unfold Visit; same_heap;
      try apply sameHeap_goArgs; try apply sameHeap_varSpecs.
  - intros st w st' E. destruct n as [[]|]; try discriminate Hn;
      unfold Visit, mbind, M_bind, bind in E;
      repeat match type of E with
        | context [field ?f v st] =>
            destruct (field f v st) as [[?|?] ?]; try discriminate E
        | context [typeContainsPointer ?t] =>
            destruct (typeContainsPointer t) as [[] ?]
        | (match ?c with _ => _ end) = _ =>
            destruct c as [[?|?] ?]; try discriminate E
        end;
      by injection E as <- <-.
Qed.

Lemma keepsHeap_Visit v n : keepsHeap (Visit v n).
Proof.
  destruct (isFuncDecl n) eqn:Hn.
  - destruct n as [[]|]; try discriminate Hn. unfold Visit.
    apply keepsHeap_bind; [apply sameHeap_keeps, sameHeap_load|].
    intros; apply keepsHeap_alloc.
  - by apply sameHeap_keeps, Visit_same_visitor.
Qed.

End Heap.

Section WalkHeap.
Context `{Frontend}.

Lemma keepsHeap_ret {A} (a : A) : keepsHeap (mret a : M A).
Proof. apply sameHeap_keeps, sameHeap_ret. Qed.

Lemma keepsHeap_walkList w l :
  Forall (fun x => forall v, keepsHeap (Walk v x)) l ->
  keepsHeap (walkList w l).
Proof.
  induction 1 as [|x l Hx _ IH]; simpl; [apply keepsHeap_ret|].
  apply keepsHeap_bind; [apply Hx|intros; apply IH].
Qed.

Lemma keepsHeap_walkOpt w o :
  (forall t, o = Some t -> forall v, keepsHeap (Walk v t)) ->
  keepsHeap (walkOpt w o).
Proof.
  destruct o as [t|]; simpl; [|intros; apply keepsHeap_ret].
  intros Ht. by apply Ht.
Qed.

Ltac keeps_heap :=
  repeat first
    [ apply keepsHeap_ret | apply keepsHeap_Visit
    | apply keepsHeap_walkList; assumption
    | apply keepsHeap_walkOpt; assumption
    | match goal with IH : forall v, keepsHeap (Walk v ?n) |- _ => apply IH end
    | apply keepsHeap_bind; [|intros] ].

(** The walk of a tree leaves every visitor allocated before it as it
    is. *)
Lemma keepsHeap_Walk n : forall v, keepsHeap (Walk v n).
Proof.
  induction n using Node_nested_ind; intros v; rewrite Walk_unfold;
    cbn [walkChildren]; keeps_heap.
Qed.

Lemma Walk_lookup n v st r st' a x :
  Walk v n st = (r, st') -> heap st !! a = Some x -> heap st' !! a = Some x.
Proof.
  intros E Ha. destruct (keepsHeap_Walk n v st r st' E) as [cells ->].
  by apply lookup_app_l_Some.
Qed.

(** *** Below a function declaration *)

Lemma quiet_ret w : quiet w (mret tt).
Proof. intros ww st _ _. exists []. by rewrite grown_nil. Qed.

Lemma quiet_bind w (c1 c2 : M unit) :
  quiet w c1 -> quiet w c2 -> quiet w (c1;; c2).
Proof.
  intros H1 H2 ww st Hw Hflag.
  destruct (H1 ww st Hw Hflag) as [cells1 E1].
  destruct (H2 ww (grown cells1 st)) as [cells2 E2]; [|done|].
  { simpl. by apply lookup_app_l_Some. }
  exists (cells1 ++ cells2)%list.
  by rewrite (bind_Ok _ _ _ _ _ E1), E2, grown_grown.
Qed.

Lemma quiet_walkList w l :
  Forall (fun x => forall v, quiet v (Walk v x)) l -> quiet w (walkList w l).
Proof.
  induction 1 as [|x l Hx _ IH]; simpl; [apply quiet_ret|].
  apply quiet_bind; [apply Hx|apply IH].
Qed.

Lemma quiet_walkOpt w o :
  (forall t, o = Some t -> forall v, quiet v (Walk v t)) ->
  quiet w (walkOpt w o).
Proof.
  destruct o as [t|]; simpl; [|intros; apply quiet_ret].
  intros Ht. by apply Ht.
Qed.

Lemma quiet_Visit_nil w : quiet w (Visit w None;; mret tt).
Proof. intros ww st _ _. exists []. by rewrite grown_nil. Qed.

(** A node at which [Visit], inside a function, returns its receiver and
    does nothing else. *)
Lemma quiet_Walk_same v node :
  (forall vv st,
     heap st !! v = Some vv -> isInsideFunction vv = true ->
     Visit v (Some node) st = (Ok v, st)) ->
  quiet v (walkChildren v node) ->
  quiet v (Walk v node).
Proof.
  intros HV Hch ww st Hw Hflag. rewrite Walk_unfold.
  rewrite (bind_Ok _ _ _ _ _ (HV ww st Hw Hflag)).
  by apply (quiet_bind v _ _ Hch (quiet_Visit_nil v) ww st).
Qed.

Ltac quiet_children :=
  repeat first
    [ apply quiet_ret
    | apply quiet_walkList; assumption
    | apply quiet_walkOpt; assumption
    | match goal with IH : forall v, quiet v (Walk v ?n) |- _ => apply IH end
    | apply quiet_bind ].

Lemma Walk_inside n : sendFree n = true -> forall v, quiet v (Walk v n).
Proof.
  unfold sendFree.
  induction n as
    [p s|f args IHf IHargs|ty b IHty IHb|c a x IHc IHx|g f args IHf IHargs
    |d IHd|lb l IHl|names ty vals IHnames IHty IHvals|tp tok specs IHspecs
    |recv name ty body IHrecv IHname IHty IHbody|p name decls IHname IHdecls
    |k p ch IHch] using Node_nested_ind;
    intros Hn v; apply allNodes_unfold in Hn; destruct Hn as [Hp Hn];
    try discriminate Hp.
  - apply quiet_Walk_same; [by intros|]. apply quiet_ret.
  - destruct Hn as [Hf Hargs]. specialize (IHf Hf).
    pose proof (Forall_modus _ _ _ IHargs Hargs).
    apply quiet_Walk_same; [by intros|]. cbn [walkChildren]. quiet_children.
  - destruct Hn as [Hty Hb]. specialize (IHty Hty). specialize (IHb Hb).
    apply quiet_Walk_same; [by intros|]. cbn [walkChildren]. quiet_children.
  - specialize (IHd Hn).
    apply quiet_Walk_same; [by intros|]. cbn [walkChildren]. quiet_children.
  - pose proof (Forall_modus _ _ _ IHl Hn).
    apply quiet_Walk_same; [by intros|]. cbn [walkChildren]. quiet_children.
  - destruct Hn as (Hnames & Hty & Hvals).
    pose proof (Forall_modus _ _ _ IHnames Hnames).
    pose proof (Forall_modus _ _ _ IHvals Hvals).
    assert (forall t, ty = Some t -> forall v, quiet v (Walk v t))
      by (intros t Ht; by apply (IHty t Ht), Hty).
    apply quiet_Walk_same; [by intros|]. cbn [walkChildren]. quiet_children.
  - pose proof (Forall_modus _ _ _ IHspecs Hn).
    apply quiet_Walk_same; [|cbn [walkChildren]; quiet_children].
    intros vv st Hv Hflag. by eapply Visit_GenDecl_inside.
  - destruct Hn as (Hrecv & Hname & Hty & Hbody).
    specialize (IHname Hname). specialize (IHty Hty).
    assert (forall t, recv = Some t -> forall v, quiet v (Walk v t))
      by (intros t Ht; by apply (IHrecv t Ht), Hrecv).
    assert (forall t, body = Some t -> forall v, quiet v (Walk v t))
      by (intros t Ht; by apply (IHbody t Ht), Hbody).
    intros vv st Hv _. rewrite Walk_unfold.
    rewrite (bind_Ok _ _ _ _ _ (Visit_FuncDecl v vv recv name ty body st Hv)).
    set (w := length (heap st)).
    set (child := mkVisitor (fset vv) (info vv) true).
    assert (Hq : quiet w (walkChildren w (FuncDecl recv name ty body);;
                          Visit w None;; mret tt)).
    { apply quiet_bind; [|apply quiet_Visit_nil].
      cbn [walkChildren]. quiet_children. }
    destruct (Hq child (grown [child] st)) as [cells E]; [|done|].
    { simpl. by apply list_lookup_middle. }
    exists ([child] ++ cells)%list. by rewrite E, grown_grown.
  - destruct Hn as [Hname Hdecls]. specialize (IHname Hname).
    pose proof (Forall_modus _ _ _ IHdecls Hdecls).
    apply quiet_Walk_same; [by intros|]. cbn [walkChildren]. quiet_children.
  - pose proof (Forall_modus _ _ _ IHch Hn).
    apply quiet_Walk_same; [by intros|]. cbn [walkChildren]. quiet_children.
Qed.

(** A function declaration without send and [go] statements below it
    prints nothing, whatever the flag of the visitor that meets it. *)
Lemma Walk_FuncDecl_quiet v vv recv name ty body st :
  heap st !! v = Some vv ->
  sendFree (FuncDecl recv name ty body) = true ->
  exists cells,
    Walk v (FuncDecl recv name ty body) st = (Ok tt, grown cells st).
Proof.
  intros Hv Hn. rewrite Walk_unfold.
  rewrite (bind_Ok _ _ _ _ _ (Visit_FuncDecl v vv recv name ty body st Hv)).
  set (w := length (heap st)).
  set (child := mkVisitor (fset vv) (info vv) true).
  apply allNodes_unfold in Hn. destruct Hn as (_ & Hrecv & Hname & Hty & Hbody).
  assert (Hq : quiet w (walkChildren w (FuncDecl recv name ty body);;
                        Visit w None;; mret tt)).
  { apply quiet_bind; [|apply quiet_Visit_nil]. cbn [walkChildren].
    repeat apply quiet_bind.
    - apply quiet_walkOpt. intros t Ht. by apply Walk_inside, Hrecv.
    - by apply Walk_inside.
    - by apply Walk_inside.
    - apply quiet_walkOpt. intros t Ht. by apply Walk_inside, Hbody. }
  destruct (Hq child (grown [child] st)) as [cells E]; [|done|].
  { simpl. by apply list_lookup_middle. }
  exists ([child] ++ cells)%list. by rewrite E, grown_grown.
Qed.

End WalkHeap.

(** ** Declarations of variables *)

Section Declarations.
Context `{Frontend}.

Lemma Walk_notTrigger v n st st' :
  notTrigger n = true ->
  walkChildren v n st = (Ok tt, st') ->
  Walk v n st = (Ok tt, st').
Proof.
  intros Hn E. rewrite Walk_unfold.
  rewrite (bind_Ok _ _ _ _ _ (Visit_notTrigger v n st Hn)).
  by rewrite (bind_Ok _ _ _ _ _ E).
Qed.

Lemma walkList_inert w l st :
  Forall (fun x => inert x = true) l -> walkList w l st = (Ok tt, st).
Proof.
  intros Hl. apply walkList_same.
  eapply Forall_impl; [exact Hl|]. intros x Hx. by apply Walk_inert.
Qed.

Lemma walkList_inert_prefix w pre l st :
  Forall (fun x => inert x = true) pre ->
  walkList w (pre ++ l) st = walkList w l st.
Proof.
  induction 1 as [|x pre Hx _ IH]; simpl; [done|].
  by rewrite (bind_Ok _ _ _ _ _ (Walk_inert x Hx w st)).
Qed.

(** The walk of a [var] declaration met outside a function, when nothing
    below its specs concerns the visitor. *)
Lemma Walk_GenDecl_var v vv tokPos specs texts st :
  heap st !! v = Some vv ->
  isInsideFunction vv = false ->
  printed vv specs texts ->
  Forall (fun x => inert x = true) specs ->
  Walk v (GenDecl tokPos token.VAR specs) st
  = (Ok tt, say (zip_with (specWarning vv) specs texts) st).
Proof.
  intros Hv Hflag Hp Hspecs. rewrite Walk_unfold.
  rewrite (bind_Ok _ _ _ _ _
             (Visit_GenDecl_var v vv tokPos specs texts st Hv Hflag Hp)).
  cbn [walkChildren].
  by rewrite (bind_Ok _ _ _ _ _ (walkList_inert v specs _ Hspecs)).
Qed.

(** A [var] declaration among the statements of a function literal that
    is met outside a function. *)
Lemma Walk_FuncLit_var v vv ty lbrace pre tokPos specs texts post st :
  heap st !! v = Some vv ->
  isInsideFunction vv = false ->
  printed vv specs texts ->
  inert ty = true ->
  Forall (fun x => inert x = true) pre ->
  Forall (fun x => inert x = true) specs ->
  Forall (fun x => inert x = true) post ->
  Walk v
    (FuncLit ty
       (BlockStmt lbrace
          (pre ++ DeclStmt (GenDecl tokPos token.VAR specs) :: post))) st
  = (Ok tt, say (zip_with (specWarning vv) specs texts) st).
Proof.
  intros Hv Hflag Hp Hty Hpre Hspecs Hpost.
  apply Walk_notTrigger; [done|]. cbn [walkChildren].
  rewrite (bind_Ok _ _ _ _ _ (Walk_inert ty Hty v st)).
  apply Walk_notTrigger; [done|]. cbn [walkChildren].
  rewrite walkList_inert_prefix by done. cbn [walkList].
  erewrite bind_Ok.
  - by apply walkList_inert.
  - apply Walk_notTrigger; [done|]. cbn [walkChildren].
    by eapply Walk_GenDecl_var.
Qed.

End Declarations.

(** ** The claims on the visitor *)

Section Claims.
Context `{Frontend}.

(** C7: at a send statement the visitor classifies the type of the value
    sent; on a negative verdict it prints nothing, on a positive one it
    prints one line, [sending pointer type over a channel], at the
    position of the statement and annotated with the witness type; for a
    value of a slice type that line names the slice type. *)
Theorem send_reports_verdict v vv ch arrow value t st :
  heap st !! v = Some vv ->
  TypeOf (info vv) value = Some t ->
  (forall w,
     typeContainsPointer (Some t) = (false, w) ->
     Visit v (Some (SendStmt ch arrow value)) st = (Ok v, st)) /\
  (forall w,
     typeContainsPointer (Some t) = (true, w) ->
     exists u,
       w = Some u /\
       Visit v (Some (SendStmt ch arrow value)) st
       = (Ok v,
          mkState (heap st)
            (stdout st ++
             [Position (fset vv) (node_Pos (SendStmt ch arrow value))
                +:+ ":warning: " +:+ "sending pointer type over a channel"
                +:+ " (" +:+ TypeString u +:+ ")" +:+ newline]))) /\
  (forall elem,
     t = Slice elem ->
     Visit v (Some (SendStmt ch arrow value)) st
     = (Ok v,
        mkState (heap st)
          (stdout st ++
           [Position (fset vv) (node_Pos (SendStmt ch arrow value))
              +:+ ":warning: " +:+ "sending pointer type over a channel"
              +:+ " (" +:+ TypeString (Slice elem) +:+ ")" +:+ newline]))).
Proof.
  intros Hv Ht.
  assert (HV := Visit_SendStmt v vv ch arrow value st Hv).
  rewrite Ht in HV. specialize (HV (mk_is_Some _ _ eq_refl)).
  unfold verdictLine in HV. rewrite Ht in HV.
  repeat split.
  - intros w E. rewrite E in HV. by rewrite say_nil in HV.
  - intros w E. destruct (verdict_resolved t w E) as [u ->].
    exists u. split; [done|]. by rewrite E in HV.
  - intros elem ->. exact HV.
Qed.

(** C2 (the code departs from its example): at [go f(p, x)] with [p] of a
    pointer type and [x] of type [unsafe.Pointer], the visitor prints,
    after what the verdict on [f] asks for, a line for [p] and a line for
    [x]: two argument lines, where one, for [p] alone, is expected. *)
Theorem go_reports_unsafe_pointer_argument v vv go f p x tf base st :
  heap st !! v = Some vv ->
  TypeOf (info vv) f = Some tf ->
  TypeOf (info vv) p = Some (Pointer base) ->
  TypeOf (info vv) x = Some (Basic UnsafePointer) ->
  Visit v (Some (GoStmt go f [p; x])) st
  = (Ok v,
     mkState (heap st)
       (stdout st ++
        verdictLine vv (GoStmt go f [p; x])
          "calling goroutine on a pointer type" f ++
        [warningLine (Position (fset vv) (node_Pos p))
           "calling goroutine with a pointer type" (TypeString (Pointer base));
         warningLine (Position (fset vv) (node_Pos x))
           "calling goroutine with a pointer type"
           (TypeString (Basic UnsafePointer))])).
Proof.
  intros Hv Hf Hp Hx.
  rewrite (Visit_GoStmt v vv go f [p; x] st Hv).
  - unfold say. do 3 f_equal. cbn [fmap list_fmap concat].
    unfold verdictLine at 2 3. by rewrite Hp, Hx.
  - by rewrite Hf.
  - repeat constructor; by rewrite ?Hp, ?Hx.
Qed.

(** C3 (as amended): at a [var] declaration met with the flag
    [isInsideFunction] unset, the visitor prints one line,
    [global var declared], for each spec of the declaration, annotated
    with the source text of the spec, also when the spec declares several
    names; with the flag set it prints nothing; and the walk of a function
    declaration with [var] declarations and no send or [go] statement
    below it prints nothing. *)
Theorem var_declaration_one_line_per_spec :
  (forall v vv tokPos specs texts st,
     heap st !! v = Some vv ->
     isInsideFunction vv = false ->
     printed vv specs texts ->
     Visit v (Some (GenDecl tokPos token.VAR specs)) st
     = (Ok v,
        mkState (heap st)
          (stdout st ++ zip_with (specWarning vv) specs texts)) /\
     length (zip_with (specWarning vv) specs texts) = length specs) /\
  (forall v vv tokPos tok specs st,
     heap st !! v = Some vv ->
     isInsideFunction vv = true ->
     Visit v (Some (GenDecl tokPos tok specs)) st = (Ok v, st)) /\
  (forall v vv recv name ty body st,
     heap st !! v = Some vv ->
     sendFree (FuncDecl recv name ty body) = true ->
     exists cells,
       Walk v (FuncDecl recv name ty body) st
       = (Ok tt, mkState (heap st ++ cells) (stdout st))).
Proof.
  split; [|split].
  - intros v vv tokPos specs texts st Hv Hflag Hp. split.
    + by apply Visit_GenDecl_var.
    + rewrite length_zip_with. apply Forall2_length in Hp. lia.
  - intros. by eapply Visit_GenDecl_inside.
  - intros. by eapply Walk_FuncDecl_quiet.
Qed.

(** C9: at a function declaration the visitor returns a new visitor, a
    copy of its receiver with the flag set, and leaves the receiver as it
    is; the walk of any tree leaves every visitor allocated before it as
    it is; so after the walk of a function declaration the flag of the
    visitor that met it reads as before, and a [var] declaration that
    follows is reported as it would have been before. *)
Theorem function_scope_is_a_copy :
  (forall v vv recv name ty body st,
     heap st !! v = Some vv ->
     Visit v (Some (FuncDecl recv name ty body)) st
     = (Ok (length (heap st)),
        mkState (heap st ++ [mkVisitor (fset vv) (info vv) true])
          (stdout st)) /\
     (heap st ++ [mkVisitor (fset vv) (info vv) true])%list !! v
     = Some vv) /\
  (forall n v st r st' a x,
     Walk v n st = (r, st') ->
     heap st !! a = Some x -> heap st' !! a = Some x) /\
  (forall v vv recv name ty body st r st',
     heap st !! v = Some vv ->
     Walk v (FuncDecl recv name ty body) st = (r, st') ->
     field isInsideFunction v st' = (Ok (isInsideFunction vv), st')) /\
  (forall v vv recv name ty body st r st' tokPos specs texts,
     heap st !! v = Some vv ->
     isInsideFunction vv = false ->
     printed vv specs texts ->
     Walk v (FuncDecl recv name ty body) st = (r, st') ->
     Visit v (Some (GenDecl tokPos token.VAR specs)) st'
     = (Ok v,
        mkState (heap st')
          (stdout st' ++ zip_with (specWarning vv) specs texts))).
Proof.
  split; [|split; [|split]].
  - intros v vv recv name ty body st Hv. split.
    + by apply Visit_FuncDecl.
    + by apply lookup_app_l_Some.
  - intros n v st r st' a x. apply Walk_lookup.
  - intros v vv recv name ty body st r st' Hv E.
    apply field_Some. by eapply Walk_lookup.
  - intros v vv recv name ty body st r st' tokPos specs texts Hv Hflag Hp E.
    apply Visit_GenDecl_var; [|done..]. by eapply Walk_lookup.
Qed.

End Claims.

(** ** The analyzer on concrete trees *)

(** C7 on [ch <- buf] with [buf] of type [[]uint8]. *)
Lemma send_reports_verdict_witness :
  @Visit demo.frontend 0 (Some demo.sendBuf) (demo.top demo.sendTypes)
  = (Ok 0,
     mkState [demo.topVisitor demo.sendTypes]
       ["x.go:70:warning: sending pointer type over a channel ([]uint8)"
          +:+ newline]).
Proof.
  destruct (@send_reports_verdict demo.frontend 0
              (demo.topVisitor demo.sendTypes)
              (Ident 70%Z "ch") 73%Z (Ident 76%Z "buf")
              (Slice (Basic Uint8)) (demo.top demo.sendTypes)
              eq_refl eq_refl) as (_ & _ & Hslice).
  exact (Hslice (Basic Uint8) eq_refl).
Defined.

(** C2 on [go f(p, x)]: three lines, two of them for the arguments. *)
Lemma go_reports_unsafe_pointer_argument_witness :
  @Visit demo.frontend 0 (Some demo.goCall) (demo.top demo.goCallTypes)
  = (Ok 0,
     mkState [demo.topVisitor demo.goCallTypes]
       ["x.go:40:warning: calling goroutine on a pointer type (func(...))"
          +:+ newline;
        "x.go:45:warning: calling goroutine with a pointer type (*int)"
          +:+ newline;
        "x.go:48:warning: calling goroutine with a pointer type (unsafe.Pointer)"
          +:+ newline]).
Proof.
  exact (@go_reports_unsafe_pointer_argument demo.frontend 0
           (demo.topVisitor demo.goCallTypes) 40%Z
           (Ident 43%Z "f") (Ident 45%Z "p") (Ident 48%Z "x")
           (Signature [Pointer (Basic Int); Basic UnsafePointer] [] false)
           (Basic Int) (demo.top demo.goCallTypes)
           eq_refl eq_refl eq_refl eq_refl).
Defined.

(** C3 on [var a, b int] at the top level: one line for the spec. *)
Lemma var_declaration_one_line_per_spec_witness :
  @Visit demo.frontend 0 (Some demo.varAB) (demo.top [])
  = (Ok 0,
     mkState [demo.topVisitor []]
       ["x.go:18:warning: global var declared (a, b int)" +:+ newline]).
Proof.
  destruct (@var_declaration_one_line_per_spec demo.frontend) as (Hvar & _).
  refine (proj1 (Hvar 0 (demo.topVisitor []) 14%Z [demo.specAB] ["a, b int"]
                   (demo.top []) eq_refl eq_refl _)).
  repeat constructor.
Defined.

(** C3 (as stated, refuted): [var a, b int] declares two names and is
    reported with one line; and [var x int] in the body of a function
    literal met at the top level is reported. *)
Lemma var_declaration_not_per_name :
  length (stdout (@Visit demo.frontend 0 (Some demo.varAB) (demo.top [])).2)
  = 1 /\
  length (declaredNames [demo.specAB]) = 2 /\
  length (stdout (@Visit demo.frontend 0 (Some demo.varAB) (demo.top [])).2)
  <> length (declaredNames [demo.specAB]) /\
  length (stdout (@Walk demo.frontend 0 demo.literal (demo.top [])).2) <> 0.
Proof. repeat split; vm_compute; discriminate. Qed.

(** C9 on [func g() { var x int }] met at the top level: the visitor of
    the top level is as before, next to the copy made for the body. *)
Lemma function_scope_is_a_copy_witness :
  heap (@Walk demo.frontend 0 demo.varInFunc (demo.top [])).2 !! 0
  = Some (demo.topVisitor []).
Proof.
  destruct (@function_scope_is_a_copy demo.frontend) as (_ & Hwalk & _).
  refine (Hwalk demo.varInFunc 0 (demo.top [])
            (@Walk demo.frontend 0 demo.varInFunc (demo.top [])).1
            (@Walk demo.frontend 0 demo.varInFunc (demo.top [])).2
            0 (demo.topVisitor []) _ eq_refl).
  reflexivity.
Defined.

(** A run of the driver on a file with [var f = func() { var x int }],
    [func g() { var x int }] and [var a, b int]: the declaration in the
    literal is reported, the one in the function declaration is not. *)
Example run_file :
  @run demo.frontend "x.go" [] demo.file
  = (Ok tt,
     mkState [demo.topVisitor []; @mkVisitor demo.frontend "x.go" [] true]
       ["x.go:18:warning: global var declared (f = ...)" +:+ newline;
        "x.go:35:warning: global var declared (x int)" +:+ newline;
        "x.go:18:warning: global var declared (a, b int)" +:+ newline]).
Proof. reflexivity. Qed.

(** * Further properties *)

(** ** The witness of a positive verdict *)

Lemma witness_shape :
  forall t u,
    typeContainsPointerT t = (true, Some u) ->
    reaches t u /\ selfWitness u = true /\
    typeContainsPointerT u = (true, Some u).
Proof.
  fix IH 1. intros t u. destruct t as [| | | | |obj t'| | | |fs|];
    try (simpl; intros [= <-]; by repeat split; try apply reaches_refl);
    try (simpl; discriminate).
  - simpl. case_bool_decide; intros [= <-];
      (repeat split; [apply reaches_refl|]); simpl; by case_bool_decide.
  - simpl. intros E. destruct (IH t' u E) as (Hr & Hs & Hu).
    repeat split; [by apply reaches_underlying|done|done].
  - rewrite typeContainsPointerT_Struct.
    induction fs as [|[name ty] rest IHfs]; simpl; [done|].
    destruct (typeContainsPointerT ty) as [[] w'] eqn:E.
    + intros [= ->]. destruct (IH ty u E) as (Hr & Hs & Hu).
      repeat split; [|done|done].
      eapply reaches_field; [apply list_elem_of_here|done].
    + intros Hrest. destruct (IHfs Hrest) as (Hr & Hs & Hu).
      repeat split; [|done|done].
      inversion Hr as [|?|fields name' ty' ? Hin Hr']; subst.
      * done.
      * eapply reaches_field; [by apply list_elem_of_further|done].
Qed.

(** X1: the witness of a positive verdict lies below the classified type
    through underlying types and struct fields, is an array, scalar, map,
    pointer, slice, signature or tuple type, and is classified positive
    with itself as witness. *)
Theorem witness_is_classified_itself t u :
  typeContainsPointer (Some t) = (true, Some u) ->
  reaches t u /\ selfWitness u = true /\
  typeContainsPointer (Some u) = (true, Some u).
Proof. apply witness_shape. Qed.

Lemma witness_is_classified_itself_witness :
  reaches
    (Named "job"
       (Struct [("done", Chan SendRecv (Basic Bool));
                ("args", Named "list" (Slice (Basic String)))]))
    (Slice (Basic String)) /\
  selfWitness (Slice (Basic String)) = true /\
  typeContainsPointer (Some (Slice (Basic String)))
  = (true, Some (Slice (Basic String))).
Proof.
  apply (witness_is_classified_itself
           (Named "job"
              (Struct [("done", Chan SendRecv (Basic Bool));
                       ("args", Named "list" (Slice (Basic String)))]))).
  reflexivity.
Defined.

(** ** The visitor at a node, further cases *)

Section VisitorMore.
Context `{Frontend}.

(** X2: at a [go] statement whose function and arguments all have an entry
    in the type table, the visitor prints the line for the function, if
    its verdict is positive, at the statement, and then a line at each
    argument with a positive verdict, in the order of the arguments; it
    returns its receiver and allocates nothing. *)
Theorem go_statement_lines v vv go f args st :
  heap st !! v = Some vv ->
  is_Some (TypeOf (info vv) f) ->
  Forall (fun arg => is_Some (TypeOf (info vv) arg)) args ->
  Visit v (Some (GoStmt go f args)) st
  = (Ok v,
     mkState (heap st)
       (stdout st ++
        verdictLine vv (GoStmt go f args)
          "calling goroutine on a pointer type" f ++
        concat ((fun arg =>
                   verdictLine vv arg "calling goroutine with a pointer type"
                     arg) <$> args))).
Proof. apply Visit_GoStmt. Qed.

(** X3: a [go] statement on an expression of a function type (a
    signature) is always reported: the classifier has no case for
    signatures, so the first line printed is the one for the function. *)
Theorem go_on_function_reported v vv go f args params results variadic st :
  heap st !! v = Some vv ->
  TypeOf (info vv) f = Some (Signature params results variadic) ->
  Forall (fun arg => is_Some (TypeOf (info vv) arg)) args ->
  exists rest,
    Visit v (Some (GoStmt go f args)) st
    = (Ok v,
       mkState (heap st)
         (stdout st ++
          warningLine (Position (fset vv) (node_Pos (GoStmt go f args)))
            "calling goroutine on a pointer type"
            (TypeString (Signature params results variadic)) :: rest)).
Proof.
  intros Hv Hf Hargs. eexists.
  rewrite (Visit_GoStmt v vv go f args st Hv); [|by rewrite Hf|done].
  unfold verdictLine at 1. rewrite Hf. reflexivity.
Qed.

Lemma Visit_SendStmt_panic v vv ch arrow value err st :
  heap st !! v = Some vv ->
  TypeOf (info vv) value = None ->
  Fprint (fset vv) (SendStmt ch arrow value) = inr err ->
  Visit v (Some (SendStmt ch arrow value)) st = (Panic err, st).
Proof.
  intros Hv Hty Herr. unfold Visit.
  rewrite (bind_Ok _ _ _ _ _ (field_Some info v vv st Hv)).
  rewrite Hty. cbn [typeContainsPointer]. cbv iota beta.
  erewrite bind_Panic; [reflexivity|].
  rewrite (bind_Ok _ _ _ _ _ (field_Some fset v vv st Hv)).
  by apply printError_panic.
Qed.

(** X4: a sent value without an entry in the type table has the nil type,
    which the classifier answers positive with no witness: the visitor
    reports the send annotated with the source text of the statement, and
    panics, printing nothing, when the printer fails on the statement. *)
Theorem send_without_type v vv ch arrow value st :
  heap st !! v = Some vv ->
  TypeOf (info vv) value = None ->
  (forall text,
     Fprint (fset vv) (SendStmt ch arrow value) = inl text ->
     Visit v (Some (SendStmt ch arrow value)) st
     = (Ok v,
        mkState (heap st)
          (stdout st ++
           [warningLine
              (Position (fset vv) (node_Pos (SendStmt ch arrow value)))
              "sending pointer type over a channel" text]))) /\
  (forall err,
     Fprint (fset vv) (SendStmt ch arrow value) = inr err ->
     Visit v (Some (SendStmt ch arrow value)) st = (Panic err, st)).
Proof.
  intros Hv Hty. split.
  - intros text Htext. by apply Visit_SendStmt_unresolved.
  - intros err Herr. by eapply Visit_SendStmt_panic.
Qed.

Lemma varSpecs_panic v vv pre texts bad err post st :
  heap st !! v = Some vv ->
  printed vv pre texts ->
  Fprint (fset vv) bad = inr err ->
  varSpecs v (pre ++ bad :: post) st
  = (Panic err, say (zip_with (specWarning vv) pre texts) st).
Proof.
  intros Hv Hp Herr. revert st Hv.
  induction Hp as [|spec text specs texts Hspec _ IH]; intros st Hv.
  - cbn [app varSpecs zip_with]. rewrite say_nil.
    rewrite (bind_Ok _ _ _ _ _ (field_Some fset v vv st Hv)).
    erewrite bind_Panic; [reflexivity|]. by apply printError_panic.
  - cbn [app varSpecs zip_with].
    rewrite (bind_Ok _ _ _ _ _ (field_Some fset v vv st Hv)).
    erewrite bind_Ok; [|by apply printError_text].
    rewrite IH by done. by rewrite say_say.
Qed.

(** X5: when the printer fails on a spec of a [var] declaration met
    outside a function, the visitor panics with the printer's error after
    the lines of the specs before it; the specs after it are not
    reported. *)
Theorem var_declaration_printer_error v vv tokPos pre texts bad err post st :
  heap st !! v = Some vv ->
  isInsideFunction vv = false ->
  printed vv pre texts ->
  Fprint (fset vv) bad = inr err ->
  Visit v (Some (GenDecl tokPos token.VAR (pre ++ bad :: post))) st
  = (Panic err,
     mkState (heap st) (stdout st ++ zip_with (specWarning vv) pre texts)).
Proof.
  intros Hv Hflag Hp Herr. unfold Visit.
  rewrite (bind_Ok _ _ _ _ _ (field_Some isInsideFunction v vv st Hv)).
  rewrite Hflag. simpl.
  erewrite bind_Panic; [reflexivity|]. by eapply varSpecs_panic.
Qed.

(** X6: an import, constant or type declaration is never reported: its
    walk, when nothing below its specs concerns the visitor, prints
    nothing and allocates nothing, whatever the flag of the visitor. *)
Theorem other_declarations_silent v vv tokPos tok specs st :
  heap st !! v = Some vv ->
  tok <> token.VAR ->
  Forall (fun x => inert x = true) specs ->
  Walk v (GenDecl tokPos tok specs) st = (Ok tt, st).
Proof.
  intros Hv Htok Hspecs. rewrite Walk_unfold.
  rewrite (bind_Ok _ _ _ _ _
             (Visit_GenDecl_other v vv tokPos tok specs st Hv Htok)).
  cbn [walkChildren].
  by rewrite (bind_Ok _ _ _ _ _ (walkList_inert v specs st Hspecs)).
Qed.

(** X7: the walk of a tree without send statements, [go] statements and
    declarations prints nothing, allocates nothing and does not panic,
    from every state and for every receiver, a dangling one too: the
    visitor does not read its receiver at such nodes. *)
Theorem inert_tree_silent n v st :
  inert n = true -> Walk v n st = (Ok tt, st).
Proof. intros Hn. by apply Walk_inert. Qed.

End VisitorMore.

(** ** What a walk depends on *)

Section Shape.
Context `{Frontend}.

Lemma yields_seq {B} vv (c : ptr -> M unit) (k : ptr -> M B) l1 r2 l2 :
  yields vv c (Ok tt) l1 -> yields vv k r2 l2 ->
  yields vv (fun v => c v;; k v) r2 (l1 ++ l2).
Proof.
  intros H1 H2 v st Hv. rewrite (bind_Ok _ _ _ _ _ (H1 v st Hv)).
  rewrite (H2 v (say l1 st)) by done. by rewrite say_say.
Qed.

Lemma yields_panic {B} vv (c : ptr -> M unit) (k : ptr -> M B) err l1 :
  yields vv c (Panic err) l1 -> yields vv (fun v => c v;; k v) (Panic err) l1.
Proof. intros H1 v st Hv. by rewrite (bind_Panic _ _ _ _ _ (H1 v st Hv)). Qed.

Lemma determined_ret {A} vv (a : A) : determined vv (fun _ => mret a).
Proof.
  exists (Ok a), []. split; [by eexists|].
  intros v st _. by rewrite say_nil.
Qed.

Lemma determined_field {A B} vv (f : visitor -> A) (k : A -> ptr -> M B) :
  determined vv (k (f vv)) ->
  determined vv (fun v => a ← field f v; k a v).
Proof.
  intros (r & lines & Hok & Hy). exists r, lines. split; [done|].
  intros v st Hv. rewrite (bind_Ok _ _ _ _ _ (field_Some f v vv st Hv)).
  by apply Hy.
Qed.

Lemma determined_seq {B} vv (c : ptr -> M unit) (k : ptr -> M B) :
  determined vv c -> determined vv k -> determined vv (fun v => c v;; k v).
Proof.
  intros (r1 & l1 & Hok1 & H1) (r2 & l2 & Hok2 & H2).
  destruct r1 as [[]|err].
  - exists r2, (l1 ++ l2)%list. split; [done|]. by apply yields_seq.
  - exists (Panic err), l1. split; [|by apply yields_panic].
    intros Hp. by destruct (Hok1 Hp).
Qed.

Lemma determined_printError vv node message t :
  determined vv (fun _ => printError (fset vv) node message t).
Proof.
  destruct t as [u|].
  - eexists (Ok tt), _. split; [by eexists|].
    intros v st _. apply printError_typed.
  - destruct (Fprint (fset vv) node) as [text|err] eqn:E.
    + eexists (Ok tt), _. split; [by eexists|].
      intros v st _. by apply printError_text.
    + exists (Panic err), []. split.
      * intros Hp. destruct (Hp node) as [text Htext]. congruence.
      * intros v st _. rewrite say_nil. by apply printError_panic.
Qed.

Lemma determined_verdict vv node message (contains : bool) pointerType :
  determined vv
    (fun v =>
       (if contains
        then fs ← field fset v; printError fs node message pointerType
        else mret tt) : M unit).
Proof.
  destruct contains; [|apply determined_ret].
  apply (determined_field vv fset
           (fun fs _ => printError fs node message pointerType)).
  apply determined_printError.
Qed.

Lemma determined_goArgs vv args : determined vv (fun v => goArgs v args).
Proof.
  induction args as [|arg rest IH]; [apply determined_ret|].
  cbn [goArgs].
  apply (determined_field vv info
           (fun i v =>
              let '(contains, pointerType) :=
                typeContainsPointer (TypeOf i arg) in
              (if contains
               then fs ← field fset v;
                    printError fs arg "calling goroutine with a pointer type"
                      pointerType
               else mret tt);;
              goArgs v rest)).
  destruct (typeContainsPointer (TypeOf (info vv) arg)) as [c p].
  apply determined_seq; [apply determined_verdict|exact IH].
Qed.

Lemma determined_varSpecs vv specs : determined vv (fun v => varSpecs v specs).
Proof.
  induction specs as [|spec rest IH]; [apply determined_ret|].
  cbn [varSpecs].
  apply (determined_field vv fset
           (fun fs v =>
              printError fs spec "global var declared" None;;
              varSpecs v rest)).
  apply (determined_seq vv (fun _ => printError (fset vv) spec _ None));
    [apply determined_printError|exact IH].
Qed.

Lemma returning_seq vv (c : ptr -> M unit) r lines v st :
  yields vv c r lines ->
  heap st !! v = Some vv ->
  (c v;; mret v) st = (returning r v, say lines st).
Proof.
  intros Hy Hv. destruct r as [[]|err].
  - by rewrite (bind_Ok _ _ _ _ _ (Hy v st Hv)).
  - by rewrite (bind_Panic _ _ _ _ _ (Hy v st Hv)).
Qed.

(** Away from function declarations, the outcome of [Visit] and the lines
    it prints depend on the visitor its receiver points to, and on nothing
    else in the state. *)
Lemma Visit_determined vv n :
  isFuncDecl n = false ->
  exists r lines,
    (printable (fset vv) -> r = Ok tt) /\
    forall v st,
      heap st !! v = Some vv -> Visit v n st = (returning r v, say lines st).
Proof.
  intros Hn.
  assert (Hunit : forall r : Res unit, (exists a, r = Ok a) -> r = Ok tt).
  { intros r [[] ->]. done. }
  destruct n as [[p s|f args|ty b|ch arrow value|go f args|d|lb l
                 |names ty vals|tp tok specs|recv name ty body|p name decls
                 |k p ch]|];
    try discriminate Hn;
    try (exists (Ok tt), []; split; [done|];
         intros v st _; by rewrite say_nil).
  - destruct (typeContainsPointer (TypeOf (info vv) value)) as [c p] eqn:E.
    destruct (determined_verdict vv (SendStmt ch arrow value)
                "sending pointer type over a channel" c p)
      as (r & lines & Hok & Hy).
    exists r, lines. split; [by intros Hp; apply Hunit, Hok|].
    intros v st Hv. unfold Visit.
    rewrite (bind_Ok _ _ _ _ _ (field_Some info v vv st Hv)). rewrite E.
    by apply (returning_seq vv _ r lines v st Hy).
  - destruct (typeContainsPointer (TypeOf (info vv) f)) as [c p] eqn:E.
    destruct (determined_seq vv _ _
                (determined_verdict vv (GoStmt go f args)
                   "calling goroutine on a pointer type" c p)
                (determined_goArgs vv args))
      as (r & lines & Hok & Hy).
    exists r, lines. split; [by intros Hp; apply Hunit, Hok|].
    intros v st Hv. unfold Visit.
    rewrite (bind_Ok _ _ _ _ _ (field_Some info v vv st Hv)). rewrite E.
    specialize (returning_seq vv _ r lines v st Hy Hv) as Hr.
    unfold mbind, M_bind, bind in Hr |- *.
    destruct (if c then _ else _) as [[[]|err] st1] eqn:E1 in Hr |- *;
      [|exact Hr].
    exact Hr.
  - destruct (negb (isInsideFunction vv) && bool_decide (tok = token.VAR))
      eqn:E.
    + destruct (determined_varSpecs vv specs) as (r & lines & Hok & Hy).
      exists r, lines. split; [by intros Hp; apply Hunit, Hok|].
      intros v st Hv. unfold Visit.
      rewrite (bind_Ok _ _ _ _ _ (field_Some isInsideFunction v vv st Hv)).
      rewrite E. by apply (returning_seq vv _ r lines v st Hy).
    + exists (Ok tt), []. split; [done|].
      intros v st Hv. unfold Visit.
      rewrite (bind_Ok _ _ _ _ _ (field_Some isInsideFunction v vv st Hv)).
      rewrite E. by rewrite say_nil.
Qed.

End Shape.

Section ShapeOfWalk.
Context `{Frontend}.

Lemma shaped_ret : shaped (fun _ => mret tt) 0.
Proof.
  intros vv. exists (Ok tt), [], 0. repeat split.
  intros v [h out] _. simpl. by rewrite !app_nil_r.
Qed.

Lemma shaped_count c m m' : m = m' -> shaped c m -> shaped c m'.
Proof. by intros ->. Qed.

Lemma shaped_ext (c1 c2 : ptr -> M unit) m :
  (forall v st, c1 v st = c2 v st) -> shaped c2 m -> shaped c1 m.
Proof.
  intros Heq Hc vv. destruct (Hc vv) as (r & lines & k & Hk & Hok & Hrun).
  exists r, lines, k. repeat split; [done..|].
  intros v st Hv. rewrite Heq. by apply Hrun.
Qed.

Lemma shaped_seq (c1 c2 : ptr -> M unit) m1 m2 :
  shaped c1 m1 -> shaped c2 m2 -> shaped (fun v => c1 v;; c2 v) (m1 + m2).
Proof.
  intros H1 H2 vv.
  destruct (H1 vv) as (r1 & l1 & k1 & Hk1 & Hok1 & Hrun1).
  destruct (H2 vv) as (r2 & l2 & k2 & Hk2 & Hok2 & Hrun2).
  destruct r1 as [[]|err].
  - exists r2, (l1 ++ l2)%list, (k1 + k2). repeat split.
    + intros Hr. by rewrite Hk1, Hk2.
    + done.
    + intros v st Hv. rewrite (bind_Ok _ _ _ _ _ (Hrun1 v st Hv)).
      rewrite Hrun2 by (simpl; by apply lookup_app_l_Some).
      simpl. by rewrite replicate_add, !app_assoc.
  - exists (Panic err), l1, k1. repeat split.
    + done.
    + intros Hp. by specialize (Hok1 Hp).
    + intros v st Hv. by rewrite (bind_Panic _ _ _ _ _ (Hrun1 v st Hv)).
Qed.

Lemma shaped_walkList l :
  Forall (fun x => shaped (fun v => Walk v x) (countFuncDecl x)) l ->
  shaped (fun w => walkList w l) (sum_list (countFuncDecl <$> l)).
Proof.
  induction 1 as [|x l Hx _ IH]; [apply shaped_ret|].
  cbn [walkList fmap list_fmap sum_list sum_list_with].
  by apply shaped_seq.
Qed.

Lemma shaped_walkOpt o :
  (forall t, o = Some t -> shaped (fun v => Walk v t) (countFuncDecl t)) ->
  shaped (fun w => walkOpt w o) (from_option countFuncDecl 0 o).
Proof.
  destruct o as [t|]; simpl; [|intros; apply shaped_ret].
  intros Ht. by apply Ht.
Qed.

Lemma shaped_Visit_nil : shaped (fun w => Visit w None;; mret tt) 0.
Proof. apply (shaped_ext _ (fun _ => mret tt)); [done|apply shaped_ret]. Qed.

(** The walk of a node that is not a function declaration. *)
Lemma shaped_Walk_same n m :
  isFuncDecl (Some n) = false ->
  shaped (fun w => walkChildren w n) m ->
  shaped (fun v => Walk v n) m.
Proof.
  intros Hn Hch vv.
  destruct (Visit_determined vv (Some n) Hn) as (r0 & l0 & Hok0 & Hvisit).
  pose proof (shaped_seq _ _ _ _ Hch shaped_Visit_nil) as Hrest.
  destruct (Hrest vv) as (r & l & k & Hk & Hok & Hrun).
  destruct r0 as [[]|err].
  - exists r, (l0 ++ l)%list, k. repeat split.
    + intros Hr. rewrite (Hk Hr). lia.
    + done.
    + intros v st Hv. rewrite Walk_unfold.
      rewrite (bind_Ok _ _ _ _ _ (Hvisit v st Hv)).
      rewrite (Hrun v (say l0 st)) by done.
      simpl. by rewrite app_assoc.
  - exists (Panic err), l0, 0. repeat split.
    + done.
    + intros Hp. by specialize (Hok0 Hp).
    + intros v st Hv. rewrite Walk_unfold.
      rewrite (bind_Panic _ _ _ _ _ (Hvisit v st Hv)).
      unfold say. simpl. by rewrite app_nil_r.
Qed.

(** The walk of a function declaration: the children are walked with the
    new visitor, whose own child is a copy of itself. *)
Lemma shaped_Walk_FuncDecl recv name ty body m :
  shaped (fun w => walkChildren w (FuncDecl recv name ty body)) m ->
  shaped (fun v => Walk v (FuncDecl recv name ty body)) (S m).
Proof.
  intros Hch vv.
  pose proof (shaped_seq _ _ _ _ Hch shaped_Visit_nil) as Hrest.
  destruct (Hrest (child vv)) as (r & l & k & Hk & Hok & Hrun).
  exists r, l, (S k). repeat split.
  - intros Hr. rewrite (Hk Hr). lia.
  - done.
  - intros v st Hv. rewrite Walk_unfold.
    rewrite (bind_Ok _ _ _ _ _ (Visit_FuncDecl v vv recv name ty body st Hv)).
    rewrite Hrun by (simpl; by apply list_lookup_middle).
    simpl. by rewrite <- app_assoc.
Qed.

(** The outcome of a walk, the lines it prints and the visitors it
    allocates depend on the visitor its receiver points to, and on nothing
    else in the state; on return there is one new visitor for each
    function declaration in the tree. *)
Lemma shaped_Walk n : shaped (fun v => Walk v n) (countFuncDecl n).
Proof.
  induction n as
    [p s|f args IHf IHargs|ty b IHty IHb|c a x IHc IHx|g f args IHf IHargs
    |d IHd|lb l IHl|names ty vals IHnames IHty IHvals|tp tok specs IHspecs
    |recv name ty body IHrecv IHname IHty IHbody|p name decls IHname IHdecls
    |k p ch IHch] using Node_nested_ind;
    try (apply shaped_Walk_same; [done|]); cbn [walkChildren countFuncDecl].
  - apply shaped_ret.
  - apply shaped_seq; [done|by apply shaped_walkList].
  - by apply shaped_seq.
  - by apply shaped_seq.
  - apply (shaped_ext _
             (fun w => Walk w f;; walkList w args;; Visit w None;; mret tt));
      [done|].
    eapply shaped_count; [|apply shaped_seq;
      [exact IHf|apply shaped_seq;
        [by apply shaped_walkList|apply shaped_Visit_nil]]].
    lia.
  - done.
  - by apply shaped_walkList.
  - eapply shaped_count; [|apply shaped_seq;
      [by apply shaped_walkList|apply shaped_seq;
        [by apply shaped_walkOpt|by apply shaped_walkList]]].
    lia.
  - by apply shaped_walkList.
  - apply shaped_Walk_FuncDecl. cbn [walkChildren].
    eapply shaped_count; [|apply shaped_seq;
      [by apply shaped_walkOpt|apply shaped_seq;
        [exact IHname|apply shaped_seq;
          [exact IHty|by apply shaped_walkOpt]]]].
    lia.
  - apply shaped_seq; [done|by apply shaped_walkList].
  - by apply shaped_walkList.
Qed.

End ShapeOfWalk.

Section WalkProperties.
Context `{Frontend}.

(** X8: two walks of the same tree whose receivers point to equal
    visitors have the same outcome, print the same lines and allocate the
    same visitors, whatever the addresses of the receivers, the other
    visitors on the heap and the output printed before. *)
Theorem walk_depends_on_visitor_only n v1 v2 vv st1 st2 :
  heap st1 !! v1 = Some vv ->
  heap st2 !! v2 = Some vv ->
  exists r lines cells,
    Walk v1 n st1
    = (r, mkState (heap st1 ++ cells) (stdout st1 ++ lines)) /\
    Walk v2 n st2
    = (r, mkState (heap st2 ++ cells) (stdout st2 ++ lines)).
Proof.
  intros Hv1 Hv2.
  destruct (shaped_Walk n vv) as (r & lines & k & _ & _ & Hrun).
  exists r, lines, (replicate k (child vv)). split; by apply Hrun.
Qed.

(** X9: a walk that returns has allocated one visitor for each function
    declaration in the tree, each of them the copy of the receiver's
    visitor with the flag set, and has left the heap as it was
    otherwise. *)
Theorem walk_allocates_per_function_declaration n v vv st st' :
  heap st !! v = Some vv ->
  Walk v n st = (Ok tt, st') ->
  heap st' = (heap st ++ replicate (countFuncDecl n) (child vv))%list.
Proof.
  intros Hv E.
  destruct (shaped_Walk n vv) as (r & lines & k & Hk & _ & Hrun).
  rewrite (Hrun v st Hv) in E. injection E as -> <-.
  specialize (Hk eq_refl). by subst k.
Qed.

Lemma walkFile_run fs i node st :
  walkFile fs i node st
  = ((run fs i node).1,
     mkState (heap st ++ heap (run fs i node).2)
       (stdout st ++ stdout (run fs i node).2)).
Proof.
  destruct (shaped_Walk node (mkVisitor fs i false))
    as (r & lines & k & _ & _ & Hrun).
  unfold run, walkFile.
  erewrite (bind_Ok _ _ (mkState [] [])); [|reflexivity].
  erewrite (bind_Ok _ _ st); [|reflexivity].
  rewrite !Hrun by (simpl; first [reflexivity|by apply list_lookup_middle]).
  simpl. by rewrite <- app_assoc.
Qed.

(** X11: the analysis of a file started in any state has the outcome of
    the analysis started from the empty state, and adds to the heap and to
    the output what that one leaves there: it reads neither the visitors
    allocated nor the lines printed for the files before it. *)
Theorem file_analysis_is_self_contained fs i node st :
  walkFile fs i node st
  = ((run fs i node).1,
     mkState (heap st ++ heap (run fs i node).2)
       (stdout st ++ stdout (run fs i node).2)).
Proof. apply walkFile_run. Qed.

End WalkProperties.

(** ** The loop over the files *)

Section Files.
Context `{Frontend}.
Variable Check : FileSet -> string -> Node -> Info + string.

Lemma checkFiles_analyzed fs files infos rest st :
  Forall2 (analyzed Check fs) files infos ->
  exists cells,
    checkFiles Check fs (files ++ rest) st
    = checkFiles Check fs rest
        (mkState (heap st ++ cells) (stdout st ++ linesOf fs files infos)).
Proof.
  intros Hfiles. revert st.
  induction Hfiles as [|[path node] i files infos [Hcheck Hrun] _ IH];
    intros st.
  - exists []. unfold linesOf. destruct st. simpl. by rewrite !app_nil_r.
  - simpl in Hcheck, Hrun. cbn [app checkFiles]. rewrite Hcheck.
    erewrite bind_Ok; [|by rewrite walkFile_run, Hrun].
    destruct (IH (mkState (heap st ++ heap (run fs i node).2)
                    (stdout st ++ stdout (run fs i node).2)))
      as [cells ->].
    exists (heap (run fs i node).2 ++ cells)%list.
    unfold linesOf. simpl. by rewrite !app_assoc.
Qed.

(** X12: when every file passes the type checker and its walk returns,
    the loop over the files returns, and its output is the lines of the
    first file analyzed on its own, then those of the second, and so on:
    no file changes what is reported for another one. *)
Theorem files_analyzed_independently fs files infos st :
  Forall2 (analyzed Check fs) files infos ->
  exists cells,
    checkFiles Check fs files st
    = (Ok tt,
       mkState (heap st ++ cells) (stdout st ++ linesOf fs files infos)).
Proof.
  intros Hfiles.
  destruct (checkFiles_analyzed fs files infos [] st Hfiles) as [cells E].
  exists cells. by rewrite app_nil_r in E.
Qed.

(** X13: at the first file the type checker rejects, the loop panics with
    the checker's error, after the lines of the files before it; that
    file and the files after it are not walked.  A panic in the walk of a
    file ends the loop in the same way, after the lines printed by that
    walk. *)
Theorem first_failure_ends_the_run fs pre infos path node post st :
  Forall2 (analyzed Check fs) pre infos ->
  (forall err,
     Check fs path node = inr err ->
     exists cells,
       checkFiles Check fs (pre ++ (path, node) :: post) st
       = (Panic err,
          mkState (heap st ++ cells) (stdout st ++ linesOf fs pre infos))) /\
  (forall i err,
     Check fs path node = inl i ->
     (run fs i node).1 = Panic err ->
     exists cells,
       checkFiles Check fs (pre ++ (path, node) :: post) st
       = (Panic err,
          mkState (heap st ++ cells)
            (stdout st ++ linesOf fs pre infos
             ++ stdout (run fs i node).2))).
Proof.
  intros Hpre.
  destruct (checkFiles_analyzed fs pre infos ((path, node) :: post) st Hpre)
    as [cells ->].
  split.
  - intros err Hcheck. exists cells. cbn [checkFiles]. by rewrite Hcheck.
  - intros i err Hcheck Hrun.
    exists (cells ++ heap (run fs i node).2)%list.
    cbn [checkFiles]. rewrite Hcheck.
    erewrite bind_Panic; [|by rewrite walkFile_run, Hrun].
    simpl. by rewrite !app_assoc.
Qed.

End Files.

(** ** The further properties on concrete trees *)

(** X2 on [go f(p, x)]. *)
Lemma go_statement_lines_witness :
  @Visit demo.frontend 0 (Some demo.goCall) (demo.top demo.goCallTypes)
  = (Ok 0,
     mkState [demo.topVisitor demo.goCallTypes]
       ["x.go:40:warning: calling goroutine on a pointer type (func(...))"
          +:+ newline;
        "x.go:45:warning: calling goroutine with a pointer type (*int)"
          +:+ newline;
        "x.go:48:warning: calling goroutine with a pointer type (unsafe.Pointer)"
          +:+ newline]).
Proof.
  refine (@go_statement_lines demo.frontend 0
            (demo.topVisitor demo.goCallTypes) 40%Z (Ident 43%Z "f")
            [Ident 45%Z "p"; Ident 48%Z "x"] (demo.top demo.goCallTypes)
            eq_refl _ _).
  - by eexists.
  - repeat constructor; by eexists.
Defined.

(** X3 on [go f(p, x)]. *)
Lemma go_on_function_reported_witness :
  exists rest,
    @Visit demo.frontend 0 (Some demo.goCall) (demo.top demo.goCallTypes)
    = (Ok 0,
       mkState [demo.topVisitor demo.goCallTypes]
         (("x.go:40:warning: calling goroutine on a pointer type (func(...))"
             +:+ newline) :: rest)).
Proof.
  refine (@go_on_function_reported demo.frontend 0
            (demo.topVisitor demo.goCallTypes) 40%Z (Ident 43%Z "f")
            [Ident 45%Z "p"; Ident 48%Z "x"]
            [Pointer (Basic Int); Basic UnsafePointer] [] false
            (demo.top demo.goCallTypes) eq_refl eq_refl _).
  repeat constructor; by eexists.
Defined.

(** X4 on [ch <- buf] with an empty type table. *)
Lemma send_without_type_witness :
  @Visit demo.frontend 0 (Some demo.sendBuf) (demo.top [])
  = (Ok 0,
     mkState [demo.topVisitor []]
       ["x.go:70:warning: sending pointer type over a channel (...)"
          +:+ newline]).
Proof.
  exact (proj1 (@send_without_type demo.frontend 0 (demo.topVisitor [])
                  (Ident 70%Z "ch") 73%Z (Ident 76%Z "buf") (demo.top [])
                  eq_refl eq_refl) "..." eq_refl).
Defined.

(** X5 on a declaration whose second spec the printer rejects. *)
Lemma var_declaration_printer_error_witness :
  @Visit demoDriver.strict 0 (Some demoDriver.varBad)
    (mkState [@mkVisitor demoDriver.strict "x.go" [] false] [])
  = (Panic "go/printer: unsupported node type",
     mkState [@mkVisitor demoDriver.strict "x.go" [] false]
       ["x.go:18:warning: global var declared (a, b int)" +:+ newline]).
Proof.
  refine (@var_declaration_printer_error demoDriver.strict 0
            (@mkVisitor demoDriver.strict "x.go" [] false) 14%Z
            [demo.specAB] ["a, b int"] (Other "BadDecl" 30%Z [])
            "go/printer: unsupported node type"
            [ValueSpec [Ident 40%Z "c"] (Some (Ident 42%Z "int")) []]
            (mkState [@mkVisitor demoDriver.strict "x.go" [] false] [])
            eq_refl eq_refl _ eq_refl).
  repeat constructor.
Defined.

(** X6 on [const c int]. *)
Lemma other_declarations_silent_witness :
  @Walk demo.frontend 0 demoDriver.constC (demo.top [])
  = (Ok tt, demo.top []).
Proof.
  refine (@other_declarations_silent demo.frontend 0 (demo.topVisitor [])
            5%Z token.CONST
            [ValueSpec [Ident 11%Z "c"] (Some (Ident 13%Z "int")) []]
            (demo.top []) eq_refl _ _).
  - discriminate.
  - repeat constructor.
Defined.

(** X7 on the call [f(p, x)], with a receiver that points nowhere. *)
Lemma inert_tree_silent_witness :
  @Walk demo.frontend 7 demoDriver.call (demo.top []) = (Ok tt, demo.top []).
Proof.
  exact (@inert_tree_silent demo.frontend demoDriver.call 7 (demo.top [])
           eq_refl).
Defined.

(** X8 on the file of [demo], walked from two states. *)
Lemma walk_depends_on_visitor_only_witness :
  exists r lines cells,
    @Walk demo.frontend 0 demo.file (demo.top [])
    = (r, mkState ([demo.topVisitor []] ++ cells) ([] ++ lines)) /\
    @Walk demo.frontend 1 demo.file
      (mkState [demo.topVisitor demo.sendTypes; demo.topVisitor []]
         ["earlier" +:+ newline])
    = (r,
       mkState
         ([demo.topVisitor demo.sendTypes; demo.topVisitor []] ++ cells)
         (["earlier" +:+ newline] ++ lines)).
Proof.
  exact (@walk_depends_on_visitor_only demo.frontend demo.file 0 1
           (demo.topVisitor []) (demo.top [])
           (mkState [demo.topVisitor demo.sendTypes; demo.topVisitor []]
              ["earlier" +:+ newline])
           eq_refl eq_refl).
Defined.

(** X9 on the file of [demo], which has one function declaration. *)
Lemma walk_allocates_per_function_declaration_witness :
  heap (@Walk demo.frontend 0 demo.file (demo.top [])).2
  = [demo.topVisitor []; @mkVisitor demo.frontend "x.go" [] true].
Proof.
  exact (@walk_allocates_per_function_declaration demo.frontend demo.file 0
           (demo.topVisitor []) (demo.top [])
           (@Walk demo.frontend 0 demo.file (demo.top [])).2
           eq_refl eq_refl).
Defined.

(** X12 on two files that pass the type checker. *)
Lemma files_analyzed_independently_witness :
  exists cells,
    @checkFiles demo.frontend demoDriver.check "x.go"
      [("a.go", demoDriver.fileA); ("b.go", demoDriver.fileB)]
      (mkState [] [])
    = (Ok tt,
       mkState ([] ++ cells)
         ([] ++
          @linesOf demo.frontend "x.go"
            [("a.go", demoDriver.fileA); ("b.go", demoDriver.fileB)]
            [[]; []])).
Proof.
  refine (@files_analyzed_independently demo.frontend demoDriver.check "x.go"
            [("a.go", demoDriver.fileA); ("b.go", demoDriver.fileB)]
            [[]; []] (mkState [] []) _).
  repeat constructor.
Defined.

(** X13 on a file the type checker rejects, after one it accepts. *)
Lemma first_failure_ends_the_run_witness :
  exists cells,
    @checkFiles demo.frontend demoDriver.check "x.go"
      [("a.go", demoDriver.fileA); ("bad.go", demoDriver.fileB);
       ("c.go", demoDriver.fileA)]
      (mkState [] [])
    = (Panic "bad.go:3:9: undefined: y",
       mkState ([] ++ cells)
         ([] ++
          @linesOf demo.frontend "x.go" [("a.go", demoDriver.fileA)] [[]])).
Proof.
  refine (proj1 (@first_failure_ends_the_run demo.frontend demoDriver.check
                   "x.go" [("a.go", demoDriver.fileA)] [[]]
                   "bad.go" demoDriver.fileB [("c.go", demoDriver.fileA)]
                   (mkState [] []) _)
            "bad.go:3:9: undefined: y" eq_refl).
  repeat constructor.
Defined.

(** The output of the loop on the two files that pass the type checker. *)
Example run_two_files :
  stdout
    (@checkFiles demo.frontend demoDriver.check "x.go"
       [("a.go", demoDriver.fileA); ("b.go", demoDriver.fileB)]
       (mkState [] [])).2
  = ["x.go:18:warning: global var declared (a, b int)" +:+ newline;
     "x.go:18:warning: global var declared (f = ...)" +:+ newline;
     "x.go:35:warning: global var declared (x int)" +:+ newline].
Proof. reflexivity. Qed.

(** ** Declarations below function literals *)

Section Children.
Context `{Frontend}.

Lemma bind_Ok_inv {A B} (c : M A) (k : A -> M B) st b st' :
  (c ≫= k) st = (Ok b, st') ->
  exists a st1, c st = (Ok a, st1) /\ k a st1 = (Ok b, st').
Proof.
  unfold mbind, M_bind, bind.
  destruct (c st) as [[a|err] st1]; [eauto|discriminate].
Qed.

Lemma bind_ret_unit (c : M unit) st : (c;; mret tt) st = c st.
Proof.
  unfold mbind, M_bind, bind. by destruct (c st) as [[[]|err] st1].
Qed.

Lemma bind_ext {A B} (c : M A) (k k' : A -> M B) st :
  (forall a st1, k a st1 = k' a st1) -> (c ≫= k) st = (c ≫= k') st.
Proof.
  intros Hk. unfold mbind, M_bind, bind.
  destruct (c st) as [[a|err] st1]; [apply Hk|done].
Qed.

Lemma bind_ext_l {A B} (c c' : M A) (k : A -> M B) st :
  c st = c' st -> (c ≫= k) st = (c' ≫= k) st.
Proof. intros Hc. unfold mbind, M_bind, bind. by rewrite Hc. Qed.

Lemma walkList_app w a b st :
  walkList w (a ++ b) st = (walkList w a;; walkList w b) st.
Proof.
  revert st. induction a as [|x a IH]; intros st; [done|].
  cbn [app walkList]. unfold mbind, M_bind, bind in IH |- *.
  destruct (Walk w x st) as [[[]|err] st1]; [apply IH|done].
Qed.

Lemma walkOpt_list w o st : walkOpt w o st = walkList w (option_list o) st.
Proof.
  destruct o as [x|]; [|done]. simpl. symmetry. apply bind_ret_unit.
Qed.

(** The walk below a node is the walk of the list of its children. *)
Lemma walkChildren_list n w st :
  walkChildren w n st = walkList w (childrenOf n) st.
Proof.
  destruct n as
    [p s|f args|ty b|c a x|g f args|d|lb l|names ty vals|tp tok specs
    |recv name ty body|p name decls|k p ch];
    cbn [walkChildren childrenOf]; try done.
  - cbn [walkList]. apply bind_ext. intros _ st1. symmetry.
    apply bind_ret_unit.
  - cbn [walkList]. apply bind_ext. intros _ st1. symmetry.
    apply bind_ret_unit.
  - cbn [walkList].
    change ((Walk w f;; walkList w args;; Visit w None;; mret tt) st
            = (Walk w f;; walkList w args) st).
    apply bind_ext. intros _ st1.
    unfold mbind, M_bind, bind.
    by destruct (walkList w args st1) as [[[]|err] st2].
  - cbn [walkList]. symmetry. apply bind_ret_unit.
  - rewrite walkList_app. apply bind_ext. intros _ st1.
    rewrite walkList_app. apply bind_ext_l, walkOpt_list.
  - rewrite walkList_app.
    rewrite (bind_ext_l _ _ _ _ (walkOpt_list w recv st)).
    apply bind_ext. intros _ st1. cbn [walkList].
    apply bind_ext. intros _ st2. apply bind_ext. intros _ st3.
    apply walkOpt_list.
Qed.

Lemma Walk_children v n st :
  Walk v n st
  = (w ← Visit v (Some n);
     walkList w (childrenOf n);; Visit w None;; mret tt) st.
Proof.
  rewrite Walk_unfold. apply bind_ext. intros w st1.
  apply bind_ext_l, walkChildren_list.
Qed.

Lemma Forall_option_list (P : Node -> Prop) o :
  (forall t, o = Some t -> P t) -> Forall P (option_list o).
Proof. destruct o as [t|]; simpl; [|done]. intros Ht. by repeat constructor; apply Ht. Qed.

(** Induction on syntax trees, with the hypothesis for the list of the
    children. *)
Lemma Node_children_ind (P : Node -> Prop) :
  (forall n, Forall P (childrenOf n) -> P n) -> forall n, P n.
Proof.
  intros HP n. induction n using Node_nested_ind; apply HP; simpl;
    repeat first
      [ done
      | apply Forall_app; split
      | apply Forall_cons; split
      | by apply Forall_option_list ].
Qed.

Lemma allNodes_children p n :
  allNodes p n = true ->
  p n = true /\ Forall (fun x => allNodes p x = true) (childrenOf n).
Proof.
  intros Hn. apply allNodes_unfold in Hn. destruct Hn as [Hp Hn].
  split; [done|].
  destruct n; simpl in *;
    repeat match goal with
      | Hc : _ /\ _ |- _ => destruct Hc
      end;
    repeat first
      [ done
      | apply Forall_app; split
      | apply Forall_cons; split
      | by apply Forall_option_list ].
Qed.

End Children.

Section Nested.
Context `{Frontend}.

Lemma shaped_walkList_all l :
  shaped (fun w => walkList w l) (sum_list (countFuncDecl <$> l)).
Proof.
  apply shaped_walkList, Forall_forall. intros x _. apply shaped_Walk.
Qed.

(** What a walk, or the walk of a list, leaves of the state it started
    in. *)
Lemma Walk_appends n v vv st r st' :
  heap st !! v = Some vv ->
  Walk v n st = (r, st') ->
  exists cells lines,
    st' = mkState (heap st ++ cells) (stdout st ++ lines).
Proof.
  intros Hv E. destruct (shaped_Walk n vv) as (r0 & lines & k & _ & _ & Hrun).
  rewrite (Hrun v st Hv) in E. injection E as _ <-. by eexists _, _.
Qed.

Lemma walkList_appends l v vv st r st' :
  heap st !! v = Some vv ->
  walkList v l st = (r, st') ->
  exists cells lines,
    st' = mkState (heap st ++ cells) (stdout st ++ lines).
Proof.
  intros Hv E.
  destruct (shaped_walkList_all l vv) as (r0 & lines & k & _ & _ & Hrun).
  rewrite (Hrun v st Hv) in E. injection E as _ <-. by eexists _, _.
Qed.

Lemma varSpecs_Ok_inv v vv specs st st' :
  heap st !! v = Some vv ->
  varSpecs v specs st = (Ok tt, st') ->
  exists texts,
    printed vv specs texts /\
    st' = say (zip_with (specWarning vv) specs texts) st.
Proof.
  revert st. induction specs as [|spec rest IH]; intros st Hv E.
  - injection E as <-. exists []. split; [constructor|by rewrite say_nil].
  - cbn [varSpecs] in E.
    rewrite (bind_Ok _ _ _ _ _ (field_Some fset v vv st Hv)) in E.
    destruct (Fprint (fset vv) spec) as [text|err] eqn:Hspec.
    + rewrite (bind_Ok _ _ _ _ _
                 (printError_text _ spec _ text st Hspec)) in E.
      apply IH in E; [|exact Hv]. destruct E as (texts & Hp & ->).
      exists (text :: texts). split; [by constructor|].
      cbn [zip_with]. by rewrite say_say.
    + by rewrite (bind_Panic _ _ _ _ _
                    (printError_panic _ spec _ err st Hspec)) in E.
Qed.

Lemma Visit_GenDecl_var_inv v vv tokPos specs st w st' :
  heap st !! v = Some vv ->
  isInsideFunction vv = false ->
  Visit v (Some (GenDecl tokPos token.VAR specs)) st = (Ok w, st') ->
  w = v /\
  exists texts,
    printed vv specs texts /\
    st' = say (zip_with (specWarning vv) specs texts) st.
Proof.
  intros Hv Hflag E. unfold Visit in E.
  rewrite (bind_Ok _ _ _ _ _
             (field_Some isInsideFunction v vv st Hv)) in E.
  rewrite Hflag in E. simpl in E.
  apply bind_Ok_inv in E. destruct E as ([] & st0 & Hspecs & [= <- <-]).
  split; [done|]. by eapply varSpecs_Ok_inv.
Qed.

(** Away from function declarations, a call of [Visit] that returns has
    returned its receiver and has only printed. *)
Lemma Visit_Ok_inv v vv n st w st' :
  heap st !! v = Some vv ->
  isFuncDecl (Some n) = false ->
  Visit v (Some n) st = (Ok w, st') ->
  w = v /\ exists lines, st' = say lines st.
Proof.
  intros Hv Hn E.
  destruct (Visit_determined vv (Some n) Hn) as (r & lines & _ & Hrun).
  rewrite (Hrun v st Hv) in E. destruct r as [[]|err]; [|discriminate].
  injection E as <- <-. split; [done|by eexists].
Qed.

Lemma walk_tail_inv v (c : M unit) st st' :
  (c;; Visit v None;; mret tt) st = (Ok tt, st') -> c st = (Ok tt, st').
Proof.
  intros E. apply bind_Ok_inv in E.
  destruct E as ([] & st1 & Hc & [= <-]). exact Hc.
Qed.

(** A [var] declaration reached from the root of a walk without entering
    a function declaration: when the walk returns, the lines of the specs
    of the declaration are in its output, next to each other and in the
    order of the specs. *)
Lemma outside_var_reported root d :
  outsideFunctions root d ->
  forall tokPos specs v vv st st',
    d = GenDecl tokPos token.VAR specs ->
    heap st !! v = Some vv ->
    isInsideFunction vv = false ->
    Walk v root st = (Ok tt, st') ->
    exists texts before after,
      printed vv specs texts /\
      stdout st'
      = (stdout st ++ before ++ zip_with (specWarning vv) specs texts
         ++ after)%list.
Proof.
  induction 1 as [d|n c d Hn Hc _ IH];
    intros tokPos specs v vv st st' Hd Hv Hflag E;
    rewrite Walk_children in E; apply bind_Ok_inv in E;
    destruct E as (w & st1 & Hvisit & Hrest); apply walk_tail_inv in Hrest.
  - subst d.
    destruct (Visit_GenDecl_var_inv _ _ _ _ _ _ _ Hv Hflag Hvisit)
      as (-> & texts & Hp & ->).
    destruct (walkList_appends _ _ vv (say _ st) _ _ Hv Hrest)
      as (cells & after & ->).
    exists texts, [], after. split; [done|]. simpl. by rewrite <- app_assoc.
  - destruct (Visit_Ok_inv _ _ _ _ _ _ Hv Hn Hvisit) as (-> & l0 & ->).
    apply list_elem_of_split in Hc. destruct Hc as (pre & post & Hch).
    rewrite Hch, walkList_app in Hrest. apply bind_Ok_inv in Hrest.
    destruct Hrest as ([] & sa & Hpre & Hrest).
    destruct (walkList_appends _ _ vv (say _ st) _ _ Hv Hpre)
      as (ca & la & ->).
    cbn [walkList] in Hrest. apply bind_Ok_inv in Hrest.
    destruct Hrest as ([] & sb & Hwalk & Hpost).
    assert (Hva : heap (mkState (heap (say l0 st) ++ ca)
                          (stdout (say l0 st) ++ la)) !! v = Some vv)
      by (simpl; by apply lookup_app_l_Some).
    destruct (IH tokPos specs v vv _ _ Hd Hva Hflag Hwalk)
      as (texts & before & after & Hp & Hout).
    assert (Hvb : heap sb !! v = Some vv) by (by eapply Walk_lookup).
    destruct (walkList_appends _ _ vv _ _ _ Hvb Hpost) as (cb & lb & ->).
    exists texts, (l0 ++ la ++ before)%list, (after ++ lb)%list.
    split; [done|]. simpl. rewrite Hout. simpl.
    by rewrite <- !app_assoc.
Qed.

(** *** Walks that return *)

Lemma untyped_report v vv node message e contains pointerType st :
  heap st !! v = Some vv ->
  forallb (rendered (fset vv)) (untyped (info vv) node e) = true ->
  typeContainsPointer (TypeOf (info vv) e) = (contains, pointerType) ->
  exists lines,
    (if contains
     then fs ← field fset v; printError fs node message pointerType
     else mret tt) st
    = (Ok tt, say lines st).
Proof.
  intros Hv Hr E. unfold untyped in Hr. rewrite E in Hr.
  destruct contains; [|exists []; by rewrite say_nil].
  rewrite (bind_Ok _ _ _ _ _ (field_Some fset v vv st Hv)).
  destruct pointerType as [u|].
  - eexists. apply printError_typed.
  - simpl in Hr. unfold rendered in Hr.
    destruct (Fprint (fset vv) node) as [text|err] eqn:Hnode; [|done].
    eexists. by apply printError_text.
Qed.

Lemma goArgs_renders v vv args st :
  heap st !! v = Some vv ->
  forallb (rendered (fset vv))
    (concat ((fun arg => untyped (info vv) arg arg) <$> args)) = true ->
  exists lines, goArgs v args st = (Ok tt, say lines st).
Proof.
  revert st. induction args as [|arg rest IH]; intros st Hv Hr.
  - exists []. by rewrite say_nil.
  - cbn [fmap list_fmap concat] in Hr. rewrite forallb_app in Hr.
    apply andb_true_iff in Hr. destruct Hr as [Harg Hrest].
    cbn [goArgs]. rewrite (bind_Ok _ _ _ _ _ (field_Some info v vv st Hv)).
    destruct (typeContainsPointer (TypeOf (info vv) arg)) as [c p] eqn:E.
    destruct (untyped_report v vv arg "calling goroutine with a pointer type"
                arg c p st Hv Harg E) as [l1 H1].
    rewrite (bind_Ok _ _ _ _ _ H1).
    destruct (IH (say l1 st) Hv Hrest) as [l2 ->].
    eexists. by rewrite say_say.
Qed.

Lemma varSpecs_renders v vv specs st :
  heap st !! v = Some vv ->
  forallb (rendered (fset vv)) specs = true ->
  exists lines, varSpecs v specs st = (Ok tt, say lines st).
Proof.
  revert st. induction specs as [|spec rest IH]; intros st Hv Hr.
  - exists []. by rewrite say_nil.
  - simpl in Hr. apply andb_true_iff in Hr. destruct Hr as [Hspec Hrest].
    unfold rendered in Hspec.
    destruct (Fprint (fset vv) spec) as [text|err] eqn:E; [|done].
    cbn [varSpecs]. rewrite (bind_Ok _ _ _ _ _ (field_Some fset v vv st Hv)).
    rewrite (bind_Ok _ _ _ _ _ (printError_text _ spec _ text st E)).
    match goal with
    | |- context [varSpecs v rest ?s] =>
        destruct (IH s Hv Hrest) as [l2 ->]
    end.
    eexists. by rewrite say_say.
Qed.

(** When the printer renders what [Visit] may ask it for at a node,
    [Visit] returns there. *)
Lemma Visit_renders v vv n st :
  heap st !! v = Some vv ->
  isFuncDecl (Some n) = false ->
  renders (fset vv) (info vv) n = true ->
  exists lines, Visit v (Some n) st = (Ok v, say lines st).
Proof.
  intros Hv Hn Hr. unfold renders in Hr.
  destruct n as
    [p s|f args|ty b|ch arrow value|go f args|d|lb l|names ty vals
    |tp tok specs|recv name ty body|p name decls|k p ch];
    try discriminate Hn;
    try (exists []; by rewrite say_nil).
  - cbn [stringified] in Hr. unfold Visit.
    rewrite (bind_Ok _ _ _ _ _ (field_Some info v vv st Hv)).
    destruct (typeContainsPointer (TypeOf (info vv) value)) as [c p] eqn:E.
    destruct (untyped_report v vv (SendStmt ch arrow value)
                "sending pointer type over a channel" value c p st Hv Hr E)
      as [l1 H1].
    exists l1. by rewrite (bind_Ok _ _ _ _ _ H1).
  - cbn [stringified] in Hr. rewrite forallb_app in Hr.
    apply andb_true_iff in Hr. destruct Hr as [Hf Hargs]. unfold Visit.
    rewrite (bind_Ok _ _ _ _ _ (field_Some info v vv st Hv)).
    destruct (typeContainsPointer (TypeOf (info vv) f)) as [c p] eqn:E.
    destruct (untyped_report v vv (GoStmt go f args)
                "calling goroutine on a pointer type" f c p st Hv Hf E)
      as [l1 H1].
    rewrite (bind_Ok _ _ _ _ _ H1).
    destruct (goArgs_renders v vv args (say l1 st) Hv Hargs) as [l2 H2].
    rewrite (bind_Ok _ _ _ _ _ H2). eexists. by rewrite say_say.
  - cbn [stringified] in Hr. unfold Visit.
    rewrite (bind_Ok _ _ _ _ _ (field_Some isInsideFunction v vv st Hv)).
    destruct (negb (isInsideFunction vv) && bool_decide (tok = token.VAR))
      eqn:E.
    + apply andb_true_iff in E. destruct E as [_ Htok]. rewrite Htok in Hr.
      destruct (varSpecs_renders v vv specs st Hv Hr) as [l1 H1].
      exists l1. by rewrite (bind_Ok _ _ _ _ _ H1).
    + exists []. by rewrite say_nil.
Qed.

Lemma walkList_renders l v vv st :
  Forall (fun x =>
            forall v vv st,
              heap st !! v = Some vv ->
              allNodes (renders (fset vv) (info vv)) x = true ->
              exists st', Walk v x st = (Ok tt, st')) l ->
  heap st !! v = Some vv ->
  Forall (fun x => allNodes (renders (fset vv) (info vv)) x = true) l ->
  exists st', walkList v l st = (Ok tt, st').
Proof.
  intros HP. revert st.
  induction HP as [|x l Hx _ IH]; intros st Hv Hl; [by eexists|].
  apply Forall_cons in Hl. destruct Hl as [Hrx Hl].
  destruct (Hx v vv st Hv Hrx) as [s1 H1].
  cbn [walkList]. rewrite (bind_Ok _ _ _ _ _ H1).
  apply IH; [by eapply Walk_lookup|done].
Qed.

(** When the printer renders what the visitor may ask it for at the nodes
    of a tree, the walk of the tree returns. *)
Lemma Walk_renders n :
  forall v vv st,
    heap st !! v = Some vv ->
    allNodes (renders (fset vv) (info vv)) n = true ->
    exists st', Walk v n st = (Ok tt, st').
Proof.
  induction n as [n IH] using Node_children_ind. intros v vv st Hv Hn.
  apply allNodes_children in Hn. destruct Hn as [Hr Hch].
  rewrite Walk_children.
  destruct (isFuncDecl (Some n)) eqn:Hfd.
  - destruct n; try discriminate Hfd.
    rewrite (bind_Ok _ _ _ _ _ (Visit_FuncDecl v vv _ _ _ _ st Hv)).
    destruct (walkList_renders _ (length (heap st))
                (mkVisitor (fset vv) (info vv) true)
                (grown [mkVisitor (fset vv) (info vv) true] st) IH)
      as [s2 H2]; [simpl; by apply list_lookup_middle|exact Hch|].
    rewrite (bind_Ok _ _ _ _ _ H2). by eexists.
  - destruct (Visit_renders v vv n st Hv Hfd Hr) as [l0 H0].
    rewrite (bind_Ok _ _ _ _ _ H0).
    destruct (walkList_renders _ v vv (say l0 st) IH Hv Hch) as [s2 H2].
    rewrite (bind_Ok _ _ _ _ _ H2). by eexists.
Qed.

End Nested.

Section Scopes.
Context `{Frontend}.

(** C10: the visitor sets the flag at function declarations and nowhere
    else.  At a function declaration [Visit] returns a visitor other than
    its receiver, with the flag set; at every other node, a function
    literal among them, it allocates nothing and returns its receiver.  So
    a [var] declaration reached without entering a function declaration,
    at any depth below function literals and whatever stands next to it,
    is reported when the walk starts with the flag unset: the walk returns
    when the printer renders what the visitor asks it for, and whenever it
    returns its output holds one line for each spec of the declaration,
    next to each other and in the order of the specs. *)
Theorem function_literal_keeps_scope :
  (forall v vv recv name ty body st,
     heap st !! v = Some vv ->
     exists w st',
       Visit v (Some (FuncDecl recv name ty body)) st = (Ok w, st') /\
       w <> v /\
       heap st' !! w = Some (mkVisitor (fset vv) (info vv) true) /\
       heap st' !! v = Some vv) /\
  (forall v n st r st',
     isFuncDecl n = false ->
     Visit v n st = (r, st') ->
     heap st' = heap st /\ forall w, r = Ok w -> w = v) /\
  (forall v ty body st, Visit v (Some (FuncLit ty body)) st = (Ok v, st)) /\
  (forall v vv ty lbrace pre tokPos specs texts post st,
     heap st !! v = Some vv ->
     isInsideFunction vv = false ->
     printed vv specs texts ->
     inert ty = true ->
     Forall (fun x => inert x = true) pre ->
     Forall (fun x => inert x = true) specs ->
     Forall (fun x => inert x = true) post ->
     Walk v
       (FuncLit ty
          (BlockStmt lbrace
             (pre ++ DeclStmt (GenDecl tokPos token.VAR specs) :: post))) st
     = (Ok tt,
        mkState (heap st)
          (stdout st ++ zip_with (specWarning vv) specs texts)) /\
     length (zip_with (specWarning vv) specs texts) = length specs) /\
  (forall root tokPos specs v vv st,
     heap st !! v = Some vv ->
     isInsideFunction vv = false ->
     outsideFunctions root (GenDecl tokPos token.VAR specs) ->
     allNodes (renders (fset vv) (info vv)) root = true ->
     exists texts before after st',
       printed vv specs texts /\
       length (zip_with (specWarning vv) specs texts) = length specs /\
       Walk v root st = (Ok tt, st') /\
       stdout st'
       = (stdout st ++ before ++ zip_with (specWarning vv) specs texts
          ++ after)%list) /\
  (forall root tokPos specs v vv st st',
     heap st !! v = Some vv ->
     isInsideFunction vv = false ->
     outsideFunctions root (GenDecl tokPos token.VAR specs) ->
     Walk v root st = (Ok tt, st') ->
     exists texts before after,
       printed vv specs texts /\
       length (zip_with (specWarning vv) specs texts) = length specs /\
       stdout st'
       = (stdout st ++ before ++ zip_with (specWarning vv) specs texts
          ++ after)%list).
Proof.
  assert (Hlen : forall vv specs texts,
            printed vv specs texts ->
            length (zip_with (specWarning vv) specs texts) = length specs).
  { intros vv specs texts Hp. rewrite length_zip_with.
    apply Forall2_length in Hp. lia. }
  split; [|split; [|split; [|split; [|split]]]].
  - intros v vv recv name ty body st Hv.
    exists (length (heap st)), (grown [mkVisitor (fset vv) (info vv) true] st).
    split; [by apply Visit_FuncDecl|]. split; [|split].
    + apply lookup_lt_Some in Hv. lia.
    + simpl. by apply list_lookup_middle.
    + simpl. by apply lookup_app_l_Some.
  - intros v n st r st' Hn E. split.
    + by eapply (Visit_same_visitor v n).
    + intros w ->. by eapply (Visit_same_visitor v n).
  - done.
  - intros v vv ty lbrace pre tokPos specs texts post st Hv Hflag Hp **.
    split; [by apply Walk_FuncLit_var|by apply Hlen].
  - intros root tokPos specs v vv st Hv Hflag Hout Hr.
    destruct (Walk_renders root v vv st Hv Hr) as [st' E].
    destruct (outside_var_reported root _ Hout tokPos specs v vv st st'
                eq_refl Hv Hflag E) as (texts & before & after & Hp & Hlines).
    exists texts, before, after, st'. by repeat split; [|apply Hlen|..].
  - intros root tokPos specs v vv st st' Hv Hflag Hout E.
    destruct (outside_var_reported root _ Hout tokPos specs v vv st st'
                eq_refl Hv Hflag E) as (texts & before & after & Hp & Hlines).
    exists texts, before, after. by repeat split; [|apply Hlen|].
Qed.

(** X10: when the printer renders the nodes the visitor may ask it for in
    a tree (the send and [go] statements and the arguments reported
    without a witness type, and the specs of the [var] declarations: all
    of them statements, expressions or specs), the walk of the tree does
    not panic, whatever the type table, missing types included: it
    returns, with one new visitor for each function declaration. *)
Theorem walk_returns_when_rendered n v vv st :
  heap st !! v = Some vv ->
  allNodes (renders (fset vv) (info vv)) n = true ->
  exists lines,
    Walk v n st
    = (Ok tt,
       mkState (heap st ++ replicate (countFuncDecl n) (child vv))
         (stdout st ++ lines)).
Proof.
  intros Hv Hr. destruct (Walk_renders n v vv st Hv Hr) as [st' E].
  destruct (shaped_Walk n vv) as (r & lines & k & Hk & _ & Hrun).
  exists lines. rewrite (Hrun v st Hv) in E |- *.
  injection E as -> _. specialize (Hk eq_refl). by subst k.
Qed.

End Scopes.

Lemma demoNested_outside :
  outsideFunctions demoNested.file demoNested.decl.
Proof.
  apply (outside_child _ demoNested.varF); [done|by repeat constructor|].
  apply (outside_child _ demoNested.spec); [done|by repeat constructor|].
  apply (outside_child _ demoNested.literal); [done|by repeat constructor|].
  apply (outside_child _ demoNested.body); [done|by repeat constructor|].
  apply (outside_child _ demoNested.ifStmt); [done|by repeat constructor|].
  apply (outside_child _ demoNested.block); [done|by repeat constructor|].
  apply (outside_child _ (DeclStmt demoNested.decl));
    [done|by repeat constructor|].
  apply (outside_child _ demoNested.decl); [done|by repeat constructor|].
  apply outside_here.
Qed.

(** C10 on a file with [var f = func() { if c { var x int } }] and
    [func g() { var x int }]: the declaration in the block of the literal
    is reported. *)
Lemma function_literal_keeps_scope_witness :
  exists texts before after st',
    @printed demo.frontend (demo.topVisitor [])
      [ValueSpec [Ident 44%Z "x"] (Some (Ident 46%Z "int")) []] texts /\
    length
      (zip_with (@specWarning demo.frontend (demo.topVisitor []))
         [ValueSpec [Ident 44%Z "x"] (Some (Ident 46%Z "int")) []] texts)
    = 1 /\
    @Walk demo.frontend 0 demoNested.file (demo.top []) = (Ok tt, st') /\
    stdout st'
    = ([] ++ before ++
       zip_with (@specWarning demo.frontend (demo.topVisitor []))
         [ValueSpec [Ident 44%Z "x"] (Some (Ident 46%Z "int")) []] texts
       ++ after)%list.
Proof.
  destruct (@function_literal_keeps_scope demo.frontend)
    as (_ & _ & _ & _ & Hnested & _).
  exact (Hnested demoNested.file 40%Z
           [ValueSpec [Ident 44%Z "x"] (Some (Ident 46%Z "int")) []]
           0 (demo.topVisitor []) (demo.top [])
           eq_refl eq_refl demoNested_outside eq_refl).
Defined.

(** The output of that walk. *)
Example run_nested_file :
  @run demo.frontend "x.go" [] demoNested.file
  = (Ok tt,
     mkState [demo.topVisitor []; @mkVisitor demo.frontend "x.go" [] true]
       ["x.go:18:warning: global var declared (f = ...)" +:+ newline;
        "x.go:44:warning: global var declared (x int)" +:+ newline]).
Proof. reflexivity. Qed.

(** X10 on the file of [demo], with the printer that fails on nodes of
    kind [BadDecl]: the walk asks it for none of them. *)
Lemma walk_returns_when_rendered_witness :
  exists lines,
    @Walk demoDriver.strict 0 demo.file
      (mkState [@mkVisitor demoDriver.strict "x.go" [] false] [])
    = (Ok tt,
       mkState
         ([@mkVisitor demoDriver.strict "x.go" [] false]
          ++ replicate 1 (@mkVisitor demoDriver.strict "x.go" [] true))
         ([] ++ lines)).
Proof.
  exact (@walk_returns_when_rendered demoDriver.strict demo.file 0
           (@mkVisitor demoDriver.strict "x.go" [] false)
           (mkState [@mkVisitor demoDriver.strict "x.go" [] false] [])
           eq_refl eq_refl).
Defined.
